(** * learn-citrination: the numeric and parsing utilities of the tutorials

    The notebooks define three small functions:
    - [get_stoich] and [enthalpy_of_formation] (phase-stability example),
      together with the loop that builds the points of the diagram;
    - [probability_improvement] (experimental-design example).

    Embedding conventions.
    - A Python [str] is a [string]; the regular expression is run by a small
      backtracking matcher for the fragment of [re] the pattern uses.
    - A Python number (int or float) is embedded by its real value in [R]:
      rounding and overflow of binary64 are not modelled.  The statements
      on values are given where the two agree: counts of at most 15 digits,
      which [float] converts without rounding, and a gap between [mean] and
      [baseline] that does not overflow; or they say only what rounding
      keeps (an order that is not strict, a bound).
    - A Python exception is a value [Raise e] of the type [result]. *)

From Stdlib Require Import List String Ascii Bool Arith NArith ZArith Lia.
From Stdlib Require Import Reals Lra.
Import ListNotations.

Local Open Scope string_scope.

(** ** Exceptions *)

Inductive exn : Type :=
| ZeroDivisionError
| ValueError.

Inductive result (A : Type) : Type :=
| Ok (a : A)
| Raise (e : exn).

Arguments Ok {A} a.
Arguments Raise {A} e.

Definition bind {A B : Type} (m : result A) (k : A -> result B) : result B :=
  match m with
  | Ok a => k a
  | Raise e => Raise e
  end.

Notation "x <- m ;; k" := (bind m (fun x => k))
  (at level 61, m at next level, right associativity).

(** ** Strings: slices *)

(** [s[:k]] *)
Fixpoint take (k : nat) (s : string) : string :=
  match k, s with
  | S k', String c s' => String c (take k' s')
  | _, _ => EmptyString
  end.

(** [s[k:]] *)
Fixpoint drop (k : nat) (s : string) : string :=
  match k, s with
  | S k', String _ s' => drop k' s'
  | _, _ => s
  end.

(** ** The fragment of [re] used by the notebook

    The pattern of [get_stoich] is a sequence of literal characters and of
    capturing groups, each holding a greedy star of a character range. *)

Inductive item : Type :=
| Lit (c : ascii)                 (* a literal character *)
| GroupStar (lo hi : ascii).      (* a group: greedy star of [lo-hi] *)

Definition in_range (lo hi c : ascii) : bool :=
  ((N_of_ascii lo <=? N_of_ascii c) && (N_of_ascii c <=? N_of_ascii hi))%N.

(** Length of the longest prefix of [s] made of characters of the range:
    what a greedy star consumes first. *)
Fixpoint span_length (lo hi : ascii) (s : string) : nat :=
  match s with
  | String c s' => if in_range lo hi c then S (span_length lo hi s') else 0
  | EmptyString => 0
  end.

(** Backtracking of a greedy star: the group first takes [k] characters; if
    the rest of the pattern fails on what is left, it gives one back. *)
Fixpoint backtrack (k : nat) (rest : string -> option (list string))
         (s : string) : option (list string) :=
  match rest (drop k s) with
  | Some gs => Some (take k s :: gs)
  | None =>
      match k with
      | O => None
      | S k' => backtrack k' rest s
      end
  end.

(** Matching a pattern at the start of [s]; the result lists the captured
    groups, in order. *)
Fixpoint match_items (p : list item) (s : string) : option (list string) :=
  match p with
  | [] => Some []
  | Lit c :: p' =>
      match s with
      | String c' s' => if Ascii.eqb c c' then match_items p' s' else None
      | EmptyString => None
      end
  | GroupStar lo hi :: p' =>
      backtrack (span_length lo hi s) (match_items p') s
  end.

(** [re.match(p, s)]: anchored at the start of [s], not at its end. *)
Definition re_match (p : list item) (s : string) : option (list string) :=
  match_items p s.

(** [m.group(i)] for [i >= 1]. *)
Definition group (m : list string) (i : nat) : string :=
  nth (i - 1) m EmptyString.

(** The pattern of [get_stoich]: the letters Al, a group of digits [0-9]
    under a star, the letters Cu, a second group of digits under a star. *)
Definition AlCu_pattern : list item :=
  [Lit "A"; Lit "l"; GroupStar "0" "9"; Lit "C"; Lit "u"; GroupStar "0" "9"].

(** ** Conversion of a string to a number *)

Definition is_digit (c : ascii) : bool := in_range "0" "9" c.

Fixpoint all_digits (s : string) : bool :=
  match s with
  | EmptyString => true
  | String c s' => is_digit c && all_digits s'
  end.

Definition digit_value (c : ascii) : Z := Z.of_N (N_of_ascii c) - 48.

(** Value of a string of decimal digits, most significant first. *)
Fixpoint digits_value_from (acc : Z) (s : string) : Z :=
  match s with
  | EmptyString => acc
  | String c s' => digits_value_from (10 * acc + digit_value c) s'
  end.

Definition digits_value (s : string) : Z := digits_value_from 0 s.

(** [float(s)] on the strings the pattern can capture: a non-empty string of
    decimal digits denotes its value.  The value is the one Python returns
    for a run of at most 15 digits (it is below 10^15, hence below 2^53);
    Python rounds a longer run to the nearest float and returns inf from 309
    digits on, which the embedding does not follow.  On the empty string
    [float] raises [ValueError].  The other syntaxes of [float] (sign, point,
    exponent) are not modelled and are reported as [ValueError] too, so that
    a proof that no exception is raised carries over to Python. *)
Definition float (s : string) : result R :=
  match s with
  | EmptyString => Raise ValueError
  | _ => if all_digits s then Ok (IZR (digits_value s)) else Raise ValueError
  end.

Local Open Scope R_scope.

(** ** Arithmetic *)

(** [a / b] on numbers: Python raises [ZeroDivisionError] when [b] is zero. *)
Definition truediv (a b : R) : result R :=
  if Req_dec_T b 0 then Raise ZeroDivisionError else Ok (a / b).

(** The largest finite binary64 number. *)
Definition float_max : R := (2 - / 2 ^ 52) * 2 ^ 1023.

(** The difference [mean - baseline] does not overflow.  When it does and
    [sigma * sqrt(2.0)] overflows too, Python divides inf by inf and
    [probability_improvement] returns nan, which is no real number. *)
Definition finite_gap (mean baseline : R) : Prop :=
  Rabs (mean - baseline) <= float_max.

(** ** The phase-stability notebook *)

Definition enthalpy_of_formation (energy n_Al n_Cu energy_Al energy_Cu : R)
  : result R :=
  truediv (energy - n_Al * energy_Al - n_Cu * energy_Cu) (n_Al + n_Cu).

Definition get_stoich (AlCu_formula : string) : result (R * R) :=
  match re_match AlCu_pattern AlCu_formula with
  | None => Ok (0, 0)
  | Some m =>
      n_Al <- (if (0 <? String.length (group m 1))%nat
               then float (group m 1) else Ok 1) ;;
      n_Cu <- (if (0 <? String.length (group m 2))%nat
               then float (group m 2) else Ok 1) ;;
      Ok (n_Al, n_Cu)
  end.

(** A record of the example data, once the loop has read it through
    [ReadView]: its chemical formula and the value of its "Total Energy"
    property.  The reads themselves, which raise on a record without that
    property, are calls of the library and are not part of the embedding. *)
Record pif : Type := mkPif {
  chemical_formula : string;
  total_energy : R
}.

(** [n_Al == 0 and n_Cu == 0] *)
Definition both_zero (n_Al n_Cu : R) : bool :=
  if Req_dec_T n_Al 0 then (if Req_dec_T n_Cu 0 then true else false)
  else false.

(** The loop over [AlCu_pifs]; [points] is the list it appends to. *)
Fixpoint collect_points (energy_Al energy_Cu : R) (AlCu_pifs : list pif)
         (points : list (R * R)) : result (list (R * R)) :=
  match AlCu_pifs with
  | [] => Ok points
  | p :: pifs' =>
      let energy := total_energy p in
      st <- get_stoich (chemical_formula p) ;;
      let '(n_Al, n_Cu) := st in
      if both_zero n_Al n_Cu then
        collect_points energy_Al energy_Cu pifs' points
      else
        x <- truediv n_Cu (n_Cu + n_Al) ;;
        h <- enthalpy_of_formation energy n_Al n_Cu energy_Al energy_Cu ;;
        collect_points energy_Al energy_Cu pifs' (points ++ [(x, h)])
  end.

(** ** The error function

    [scipy.special.erf] is the error function of mathematics:
    erf x = 2 / sqrt pi * (integral of exp (- t^2) for t from 0 to x). *)

Definition gauss (t : R) : R := exp (- (t * t)).

Definition continuity_integrable (f : R -> R) (a b : R) (C : continuity f)
  : Riemann_integrable f a b.
Proof.
  destruct (Rle_dec a b) as [h|h].
  - apply continuity_implies_RiemannInt; [exact h | intros; apply C].
  - apply RiemannInt_P1, continuity_implies_RiemannInt; [lra | intros; apply C].
Qed.

Definition gauss_integrable (a b : R) : Riemann_integrable gauss a b.
Proof.
  apply continuity_integrable. unfold gauss. reg.
Qed.

Definition gauss_int (x : R) : R := RiemannInt (gauss_integrable 0 x).

Definition erf (x : R) : R := 2 / sqrt PI * gauss_int x.

(** ** The experimental-design notebook *)

(** The outer [float(...)] converts a number to a float: it keeps the
    value. *)
Definition probability_improvement (mean sigma baseline : R) : result R :=
  x <- truediv (mean - baseline) (sigma * sqrt 2.0) ;;
  Ok (0.5 * (1.0 + erf x)).

(** ** What the claims speak about *)

(** Digits of [rest] that directly follow: a greedy group takes them too. *)
Definition leading_digits (rest : string) : string :=
  take (span_length "0" "9" rest) rest.

(** The count written by a group: the value of its digits, 1 when the group
    is empty. *)
Definition count_or_1 (d : string) : R :=
  match d with
  | EmptyString => 1
  | _ => IZR (digits_value d)
  end.

(** A string starts with the two-element pattern: the letters Al, digits,
    the letters Cu, digits, and anything after. *)
Definition AlCu_prefix (s : string) : Prop :=
  exists d1 d2 rest : string,
    all_digits d1 = true /\ all_digits d2 = true /\
    s = ("Al" ++ d1 ++ "Cu" ++ d2 ++ rest)%string.

(** Density of the normal law of mean [mean] and standard deviation
    [sigma]. *)
Definition normal_pdf (mean sigma t : R) : R :=
  / (sigma * sqrt (2 * PI))
  * exp (- ((t - mean) * (t - mean) / (2 * (sigma * sigma)))).

Definition normal_pdf_integrable (mean sigma a b : R)
  : Riemann_integrable (normal_pdf mean sigma) a b.
Proof.
  apply continuity_integrable. unfold normal_pdf. reg.
Qed.

(** Probability that a normal variable falls between [a] and [b]. *)
Definition normal_mass (mean sigma a b : R) : R :=
  RiemannInt (normal_pdf_integrable mean sigma a b).

(** [f T] tends to [l] when [T] grows: the probability of exceeding [a] is
    the limit of [normal_mass mean sigma a T]. *)
Definition tends_to_at_infinity (f : R -> R) (l : R) : Prop :=
  forall eps : R, 0 < eps ->
  exists T0 : R, forall T : R, T0 < T -> Rabs (f T - l) < eps.

(** ** An auxiliary integral

    The bounds of [erf] come from the integral over [0, 1] of
    [aux x t = exp (- (1 + t^2) x^2) / (1 + t^2)]; [aux1] and [aux2] are its
    first and second derivatives in [x]. *)

Definition aux (x t : R) : R := exp (- (1 + t * t) * (x * x)) * / (1 + t * t).
Definition aux1 (x t : R) : R := - (2 * x) * exp (- (1 + t * t) * (x * x)).
Definition aux2 (x t : R) : R :=
  exp (- (1 + t * t) * (x * x)) * (4 * (1 + t * t) * (x * x) - 2).

Definition aux_integrable (x : R) : Riemann_integrable (aux x) 0 1.
Proof.
  apply continuity_integrable. unfold aux. reg. intros t. nra.
Qed.

Definition aux1_integrable (x : R) : Riemann_integrable (aux1 x) 0 1.
Proof.
  apply continuity_integrable. unfold aux1. reg.
Qed.

Definition aux_int (x : R) : R := RiemannInt (aux_integrable x).

(** ** The rest of the phase-stability cell *)

(** The computations of the cell that builds the points, from the values
    read from the records: the reference energy of aluminium is the total
    energy of the Al4 record divided by 4, that of copper the total energy of
    the Cu record; the list starts with the two pure elements.  Listing the
    directory and reading the records are not part of the embedding. *)
Definition phase_points (Al_total Cu_total : R) (AlCu_pifs : list pif)
  : result (list (R * R)) :=
  energy_Al <- truediv Al_total 4 ;;
  let energy_Cu := Cu_total in
  collect_points energy_Al energy_Cu AlCu_pifs [(0.0, 0.0); (1.0, 0.0)].

(** What one record adds to the list, written without the loop: nothing
    when both counts are zero, else the copper fraction and the enthalpy. *)
Definition stoich_point (energy_Al energy_Cu : R) (p : pif) : list (R * R) :=
  match get_stoich (chemical_formula p) with
  | Ok (n_Al, n_Cu) =>
      if both_zero n_Al n_Cu then []
      else [(n_Cu / (n_Cu + n_Al),
             (total_energy p - n_Al * energy_Al - n_Cu * energy_Cu)
             / (n_Al + n_Cu))]
  | Raise _ => []
  end.

(** ** The data handling of the experimental-design notebook

    The rows are the dicts [x.extracted] of the search hits: keys and values
    are strings.  A dict is an association list read at its first binding. *)

Module Design.

Inductive exn : Type :=
| KeyError (key : string)
| ValueError.

Inductive result (A : Type) : Type :=
| Ok (a : A)
| Raise (e : exn).

Arguments Ok {A} a.
Arguments Raise {A} e.

Definition row : Type := list (string * string).

(** [d[key]] *)
Fixpoint getitem (key : string) (d : row) : result string :=
  match d with
  | [] => Raise (KeyError key)
  | (k, v) :: d' => if String.eqb k key then Ok v else getitem key d'
  end.

(** [del d[key]] *)
Definition delitem (key : string) (d : row) : result row :=
  match getitem key d with
  | Ok _ => Ok (filter (fun kv => negb (String.eqb (fst kv) key)) d)
  | Raise e => Raise e
  end.

Definition newline : string := String (ascii_of_nat 10) EmptyString.

(** The first line of the file. *)
Definition header : string := ("FORMULA, PROPERTY: ZT " ++ newline)%string.

(** The line of a row: the format string names the key formula, then the
    key ZT; a missing key raises [KeyError]. *)
Definition format_row (r : row) : result string :=
  match getitem "formula" r with
  | Ok formula =>
      match getitem "ZT" r with
      | Ok ZT => Ok (formula ++ ", " ++ ZT ++ newline)%string
      | Raise e => Raise e
      end
  | Raise e => Raise e
  end.

(** The loop of [write_csv]; [f] is the text written so far.  The text is
    returned with the outcome: what is written before an exception stays in
    the file. *)
Fixpoint write_rows (rows : list row) (f : string) : string * result unit :=
  match rows with
  | [] => (f, Ok tt)
  | r :: rows' =>
      match format_row r with
      | Ok line => write_rows rows' (f ++ line)
      | Raise e => (f, Raise e)
      end
  end.

(** [write_csv(name, rows)]: the text of the file [name] and the outcome. *)
Definition write_csv (rows : list row) : string * result unit :=
  write_rows rows header.

(** [full_data[:20]] *)
Definition known_subset (full_data : list row) : list row :=
  firstn 20 full_data.

(** The loop that deletes the key ZT of each row. *)
Fixpoint del_ZT (rows : list row) : result (list row) :=
  match rows with
  | [] => Ok []
  | x :: rows' =>
      match delitem "ZT" x with
      | Ok x' =>
          match del_ZT rows' with
          | Ok rows'' => Ok (x' :: rows'')
          | Raise e => Raise e
          end
      | Raise e => Raise e
      end
  end.

(** [full_data[20:]], after the loop. *)
Definition unknown_subset (full_data : list row) : result (list row) :=
  del_ZT (skipn 20 full_data).

Section Baseline.

(** [float(s)] on the values of the key ZT, which are decimal literals:
    [None] stands for [ValueError]. *)
Variable to_float : string -> option R.

(** [float(x['ZT'])] *)
Definition ZT_value (x : row) : result R :=
  match getitem "ZT" x with
  | Ok z =>
      match to_float z with
      | Some v => Ok v
      | None => Raise ValueError
      end
  | Raise e => Raise e
  end.

(** The generator [float(x['ZT']) for x in rows], consumed in order. *)
Fixpoint ZT_values (rows : list row) : result (list R) :=
  match rows with
  | [] => Ok []
  | x :: rows' =>
      match ZT_value x with
      | Ok v =>
          match ZT_values rows' with
          | Ok vs => Ok (v :: vs)
          | Raise e => Raise e
          end
      | Raise e => Raise e
      end
  end.

(** [max] of a sequence: [ValueError] when it is empty. *)
Definition max (l : list R) : result R :=
  match l with
  | [] => Raise ValueError
  | v :: l' => Ok (fold_left Rmax l' v)
  end.

Definition baseline_ZT (known : list row) : result R :=
  match ZT_values known with
  | Ok vs => max vs
  | Raise e => Raise e
  end.

End Baseline.

(** Number of occurrences of a character in a text. *)
Fixpoint count_char (c : ascii) (s : string) : nat :=
  match s with
  | EmptyString => 0
  | String c' s' => (if Ascii.eqb c c' then 1 else 0) + count_char c s'
  end.

(** A stand-in for [float], defined on two literals, for the examples. *)
Definition sample_float (s : string) : option R :=
  if String.eqb s "0.1" then Some 0.1
  else if String.eqb s "0.4" then Some 0.4 else None.

(** A row that can be written: it has the two keys. *)
Definition writable (r : row) : Prop :=
  exists formula ZT : string,
    getitem "formula" r = Ok formula /\ getitem "ZT" r = Ok ZT.

(** A row whose two values hold no line break. *)
Definition one_line (r : row) : Prop :=
  exists formula ZT : string,
    getitem "formula" r = Ok formula /\ getitem "ZT" r = Ok ZT /\
    count_char (ascii_of_nat 10) formula = 0%nat /\
    count_char (ascii_of_nat 10) ZT = 0%nat.

End Design.

(** ** Reading a property of a record

    The first cells read the total energy of a record from the list of its
    properties: the first property of that name, then the first of its
    scalars.  A scalar is kept as its value. *)

Module PifRead.

Inductive exn : Type :=
| StopIteration
| IndexError.

Inductive result (A : Type) : Type :=
| Ok (a : A)
| Raise (e : exn).

Arguments Ok {A} a.
Arguments Raise {A} e.

Record property : Type := mkProperty {
  name : string;
  scalars : list R
}.

(** [next(x for x in properties if x.name == key)] *)
Fixpoint next_named (key : string) (properties : list property)
  : result property :=
  match properties with
  | [] => Raise StopIteration
  | x :: properties' =>
      if String.eqb (name x) key then Ok x else next_named key properties'
  end.

(** [next(...).scalars[0].value] for the name "Total Energy". *)
Definition total_energy_value (properties : list property) : result R :=
  match next_named "Total Energy" properties with
  | Ok x =>
      match scalars x with
      | v :: _ => Ok v
      | [] => Raise IndexError
      end
  | Raise e => Raise e
  end.

End PifRead.

(** * Properties *)

(** ** Slices *)

Lemma take_app_length (a b : string) :
  take (String.length a) (a ++ b) = a.
Proof.
  induction a as [|c a IH]; simpl.
  - destruct b; reflexivity.
  - now rewrite IH.
Qed.

Lemma drop_app_length (a b : string) :
  drop (String.length a) (a ++ b) = b.
Proof.
  induction a as [|c a IH]; simpl; [destruct b; reflexivity | exact IH].
Qed.

Lemma take_app_plus (a b : string) (k : nat) :
  take (String.length a + k) (a ++ b) = (a ++ take k b)%string.
Proof.
  induction a as [|c a IH]; simpl; [reflexivity | now rewrite IH].
Qed.

Lemma take_drop (k : nat) (s : string) :
  (take k s ++ drop k s)%string = s.
Proof.
  revert s; induction k as [|k IH]; intros [|c s]; simpl; try reflexivity.
  now rewrite IH.
Qed.

Lemma append_assoc (a b c : string) :
  ((a ++ b) ++ c = a ++ (b ++ c))%string.
Proof.
  induction a as [|x a IH]; simpl; [reflexivity | now rewrite IH].
Qed.

Lemma append_nil_r (a : string) : (a ++ "")%string = a.
Proof.
  induction a as [|x a IH]; simpl; [reflexivity | now rewrite IH].
Qed.

(** ** Runs of digits *)

Lemma all_digits_app (a b : string) :
  all_digits (a ++ b) = all_digits a && all_digits b.
Proof.
  induction a as [|c a IH]; simpl; [reflexivity |].
  now rewrite IH, andb_assoc.
Qed.

Lemma span_length_app (d r : string) :
  all_digits d = true ->
  span_length "0" "9" (d ++ r) = (String.length d + span_length "0" "9" r)%nat.
Proof.
  induction d as [|c d IH]; simpl; intros H; [reflexivity |].
  apply andb_true_iff in H as [Hc Hd].
  unfold is_digit in Hc. rewrite Hc. now rewrite IH.
Qed.

Lemma all_digits_take (k : nat) (s : string) :
  (k <= span_length "0" "9" s)%nat -> all_digits (take k s) = true.
Proof.
  revert s; induction k as [|k IH]; intros [|c s]; simpl; try reflexivity.
  unfold is_digit. destruct (in_range "0" "9" c) eqn:E; simpl.
  - intros H. apply IH. lia.
  - intros H. lia.
Qed.

Lemma all_digits_leading (rest : string) :
  all_digits (leading_digits rest) = true.
Proof.
  apply all_digits_take. apply Nat.le_refl.
Qed.

Lemma leading_digits_idem (rest : string) :
  leading_digits (leading_digits rest) = leading_digits rest.
Proof.
  unfold leading_digits.
  induction rest as [|c r IH]; simpl; [reflexivity |].
  destruct (in_range "0" "9" c) eqn:E; simpl; [| reflexivity].
  rewrite E. simpl. now rewrite IH.
Qed.

Lemma digit_value_nonneg (c : ascii) : is_digit c = true -> (0 <= digit_value c)%Z.
Proof.
  unfold is_digit, in_range, digit_value. intros H.
  apply andb_true_iff in H as [H _]. apply N.leb_le in H.
  change (N_of_ascii "0") with 48%N in H.
  set (n := N_of_ascii c) in *. clearbody n. lia.
Qed.

Lemma digits_value_from_nonneg (s : string) (acc : Z) :
  all_digits s = true -> (0 <= acc)%Z -> (0 <= digits_value_from acc s)%Z.
Proof.
  revert acc; induction s as [|c s IH]; cbn [digits_value_from all_digits];
    intros acc H Hacc; [exact Hacc |].
  apply andb_true_iff in H as [Hc Hs].
  apply IH; [exact Hs |]. pose proof (digit_value_nonneg c Hc). lia.
Qed.

Lemma count_or_1_nonneg (d : string) :
  all_digits d = true -> 0 <= count_or_1 d.
Proof.
  intros H. destruct d as [|c d]; [simpl; lra |].
  unfold count_or_1. apply IZR_le.
  apply digits_value_from_nonneg; [exact H | lia].
Qed.

(** ** The matcher *)

Lemma backtrack_first (k : nat) rest (s : string) (gs : list string) :
  rest (drop k s) = Some gs -> backtrack k rest s = Some (take k s :: gs).
Proof.
  intros H. destruct k; cbn [backtrack]; now rewrite H.
Qed.

Lemma backtrack_some (n : nat) rest (s : string) (m : list string) :
  backtrack n rest s = Some m ->
  exists (k : nat) (gs : list string),
    (k <= n)%nat /\ rest (drop k s) = Some gs /\ m = take k s :: gs.
Proof.
  induction n as [|n IH]; cbn [backtrack].
  - destruct (rest (drop 0 s)) as [gs|] eqn:E; [| discriminate].
    intros [= <-]. exists 0%nat, gs. auto.
  - destruct (rest (drop (S n) s)) as [gs|] eqn:E.
    + intros [= <-]. exists (S n), gs. auto.
    + intros H. destruct (IH H) as (k & gs & Hk & Hr & Hm).
      exists k, gs. auto.
Qed.

Lemma backtrack_none (n : nat) rest (s : string) :
  backtrack n rest s = None ->
  forall k : nat, (k <= n)%nat -> rest (drop k s) = None.
Proof.
  induction n as [|n IH]; cbn [backtrack].
  - destruct (rest (drop 0 s)) eqn:E; [discriminate |].
    intros _ k Hk. assert (k = 0)%nat as -> by lia. exact E.
  - destruct (rest (drop (S n) s)) eqn:E; [discriminate |].
    intros H k Hk. destruct (Nat.eq_dec k (S n)) as [-> | Hne]; [exact E |].
    apply IH; [exact H | lia].
Qed.

(** The last group of the pattern: nothing follows it, so it keeps the whole
    run of digits. *)
Lemma match_last_group (s : string) :
  match_items [GroupStar "0" "9"] s = Some [leading_digits s].
Proof.
  simpl. now apply backtrack_first.
Qed.

(** A string that starts with the pattern is matched, and the groups are the
    two runs of digits. *)
Lemma re_match_AlCu_prefix (d1 d2 rest : string) :
  all_digits d1 = true -> all_digits d2 = true ->
  re_match AlCu_pattern ("Al" ++ d1 ++ "Cu" ++ d2 ++ rest)
  = Some [d1; (d2 ++ leading_digits rest)%string].
Proof.
  intros H1 H2. unfold re_match, AlCu_pattern.
  cbn [match_items append Ascii.eqb Bool.eqb].
  rewrite (span_length_app d1 _ H1).
  change (span_length "0" "9" ("Cu" ++ d2 ++ rest)) with 0%nat.
  rewrite Nat.add_0_r.
  rewrite (backtrack_first _ _ _ [(d2 ++ leading_digits rest)%string]).
  - now rewrite take_app_length.
  - rewrite drop_app_length.
    cbn [match_items append Ascii.eqb Bool.eqb].
    fold (match_items [GroupStar "0" "9"] (d2 ++ rest)).
    rewrite match_last_group. unfold leading_digits.
    rewrite (span_length_app d2 _ H2), take_app_plus. reflexivity.
Qed.

(** Conversely a match decomposes the string. *)
Lemma re_match_AlCu_some (s : string) (m : list string) :
  re_match AlCu_pattern s = Some m ->
  exists d1 d2 rest : string,
    all_digits d1 = true /\ all_digits d2 = true /\
    s = ("Al" ++ d1 ++ "Cu" ++ d2 ++ rest)%string /\
    m = [d1; d2] /\ leading_digits rest = ""%string.
Proof.
  unfold re_match, AlCu_pattern. intros H.
  destruct s as [|a s]; [discriminate |].
  cbn [match_items] in H.
  destruct (Ascii.eqb "A" a) eqn:Ea; [| discriminate].
  apply Ascii.eqb_eq in Ea; subst a.
  destruct s as [|l s]; [discriminate |].
  destruct (Ascii.eqb "l" l) eqn:El; [| discriminate].
  apply Ascii.eqb_eq in El; subst l.
  apply backtrack_some in H as (k & gs & Hk & Hrest & ->).
  remember (drop k s) as t eqn:Ht.
  destruct t as [|c t]; [discriminate |].
  cbn [match_items] in Hrest.
  destruct (Ascii.eqb "C" c) eqn:Ec; [| discriminate].
  apply Ascii.eqb_eq in Ec; subst c.
  destruct t as [|u t]; [discriminate |].
  destruct (Ascii.eqb "u" u) eqn:Eu; [| discriminate].
  apply Ascii.eqb_eq in Eu; subst u.
  fold (match_items [GroupStar "0" "9"] t) in Hrest.
  rewrite match_last_group in Hrest. injection Hrest as <-.
  exists (take k s), (leading_digits t), (drop (span_length "0" "9" t) t).
  repeat split.
  - now apply all_digits_take.
  - apply all_digits_leading.
  - unfold leading_digits. rewrite take_drop.
    change ("Al" ++ take k s ++ "Cu" ++ t)%string
      with (String "A" (String "l" (take k s ++ String "C" (String "u" t)))).
    rewrite Ht, take_drop. reflexivity.
  - clear. unfold leading_digits.
    induction t as [|c t IH]; simpl; [reflexivity |].
    destruct (in_range "0" "9" c) eqn:E; simpl; [exact IH |].
    now rewrite E.
Qed.

Lemma re_match_AlCu_none (s : string) :
  re_match AlCu_pattern s = None <-> ~ AlCu_prefix s.
Proof.
  split.
  - intros H (d1 & d2 & rest & H1 & H2 & ->).
    rewrite re_match_AlCu_prefix in H by assumption. discriminate.
  - intros H. destruct (re_match AlCu_pattern s) as [m|] eqn:E; [| reflexivity].
    exfalso. apply H.
    apply re_match_AlCu_some in E as (d1 & d2 & rest & H1 & H2 & Hs & _).
    exists d1, d2, rest. auto.
Qed.

(** ** [get_stoich] *)

Lemma group_count (d : string) :
  all_digits d = true ->
  (if (0 <? String.length d)%nat then float d else Ok 1) = Ok (count_or_1 d).
Proof.
  intros H. destruct d as [|c d]; [reflexivity |].
  cbn [String.length Nat.ltb Nat.leb]. unfold float, count_or_1.
  now rewrite H.
Qed.

Lemma get_stoich_prefix (d1 d2 rest : string) :
  all_digits d1 = true -> all_digits d2 = true ->
  get_stoich ("Al" ++ d1 ++ "Cu" ++ d2 ++ rest)
  = Ok (count_or_1 d1, count_or_1 (d2 ++ leading_digits rest)).
Proof.
  intros H1 H2. unfold get_stoich.
  rewrite re_match_AlCu_prefix by assumption.
  cbn [group Nat.sub nth].
  rewrite (group_count d1 H1). cbn [bind].
  rewrite group_count; [reflexivity |].
  rewrite all_digits_app, H2. apply all_digits_leading.
Qed.

Lemma get_stoich_unmatched (s : string) :
  re_match AlCu_pattern s = None -> get_stoich s = Ok (0, 0).
Proof.
  intros H. unfold get_stoich. now rewrite H.
Qed.

(** [get_stoich] raises no exception: [float] only sees digits, and never the
    empty string.  Both counts are non-negative. *)
Lemma get_stoich_total (s : string) :
  exists n_Al n_Cu : R,
    get_stoich s = Ok (n_Al, n_Cu) /\ 0 <= n_Al /\ 0 <= n_Cu.
Proof.
  destruct (re_match AlCu_pattern s) as [m|] eqn:E.
  - apply re_match_AlCu_some in E as (d1 & d2 & rest & H1 & H2 & -> & _ & Hr).
    exists (count_or_1 d1), (count_or_1 d2).
    rewrite get_stoich_prefix, Hr, append_nil_r by assumption.
    auto using count_or_1_nonneg.
  - exists 0, 0. rewrite get_stoich_unmatched by assumption.
    repeat split; lra.
Qed.

(** ** The loop *)

Lemma both_zero_true (a b : R) : both_zero a b = true <-> a = 0 /\ b = 0.
Proof.
  unfold both_zero.
  destruct (Req_dec_T a 0), (Req_dec_T b 0); split; intros H;
    try discriminate; try tauto; auto.
Qed.

Lemma collect_points_skip (energy_Al energy_Cu : R) (p : pif)
      (pifs : list pif) (points : list (R * R)) :
  get_stoich (chemical_formula p) = Ok (0, 0) ->
  collect_points energy_Al energy_Cu (p :: pifs) points
  = collect_points energy_Al energy_Cu pifs points.
Proof.
  intros H. cbn [collect_points]. rewrite H. cbn [bind].
  assert (both_zero 0 0 = true) as -> by (apply both_zero_true; auto).
  reflexivity.
Qed.

(** The guard of the loop is enough: the loop never divides by zero. *)
Lemma collect_points_total (energy_Al energy_Cu : R) (pifs : list pif) :
  forall points : list (R * R),
  exists points' : list (R * R),
    collect_points energy_Al energy_Cu pifs points = Ok points'.
Proof.
  induction pifs as [|p pifs IH]; intros points; cbn [collect_points].
  - now exists points.
  - destruct (get_stoich_total (chemical_formula p))
      as (a & b & -> & Ha & Hb).
    cbn [bind].
    destruct (both_zero a b) eqn:E; [apply IH |].
    assert (a + b <> 0) as Hne.
    { intros Hs. assert (a = 0 /\ b = 0) as Hz by (split; lra).
      apply both_zero_true in Hz. congruence. }
    unfold enthalpy_of_formation, truediv.
    destruct (Req_dec_T (b + a) 0) as [Hz|_]; [exfalso; lra |].
    destruct (Req_dec_T (a + b) 0) as [Hz|_]; [exfalso; lra |].
    cbn [bind]. apply IH.
Qed.

(** ** Division *)

Lemma truediv_ok (a b : R) : b <> 0 -> truediv a b = Ok (a / b).
Proof.
  intros H. unfold truediv. destruct (Req_dec_T b 0); [contradiction | reflexivity].
Qed.

Lemma truediv_zero (a : R) : truediv a 0 = Raise ZeroDivisionError.
Proof.
  unfold truediv. destruct (Req_dec_T 0 0); [reflexivity | contradiction].
Qed.

Lemma sigma_sqrt2_neq_0 (sigma : R) : sigma <> 0 -> sigma * sqrt 2 <> 0.
Proof.
  intros H E. apply Rmult_integral in E as [E | E]; [contradiction |].
  now apply sqrt2_neq_0.
Qed.

Lemma sigma_sqrt2_pos (sigma : R) : 0 < sigma -> 0 < sigma * sqrt 2.
Proof.
  intros H. apply Rmult_lt_0_compat; [exact H |]. apply sqrt_lt_R0. lra.
Qed.

(** ** Integrals and derivatives *)

Lemma derivable_lim_continuity_pt (f : R -> R) (x l : R) :
  derivable_pt_lim f x l -> continuity_pt f x.
Proof.
  intros H. apply derivable_continuous_pt. exists l. exact H.
Qed.

Lemma RiemannInt_FTC_le (f F : R -> R) (a b : R) (pr : Riemann_integrable f a b) :
  a <= b ->
  (forall x, a <= x <= b -> continuity_pt f x) ->
  (forall x, a <= x <= b -> derivable_pt_lim F x (f x)) ->
  RiemannInt pr = F b - F a.
Proof.
  intros h C0 D.
  rewrite (RiemannInt_P20 h (FTC_P1 h C0) pr).
  destruct (antiderivative_Ucte f (primitive h (FTC_P1 h C0)) F a b) as [c Hc].
  - apply RiemannInt_P29.
  - split; [| exact h]. intros x Hx. exists (exist _ (f x) (D x Hx)). reflexivity.
  - rewrite (Hc b), (Hc a); lra.
Qed.

Lemma RiemannInt_FTC (f F : R -> R) (a b : R) (pr : Riemann_integrable f a b) :
  continuity f -> (forall x, derivable_pt_lim F x (f x)) ->
  RiemannInt pr = F b - F a.
Proof.
  intros C D. destruct (Rle_dec a b) as [h|h].
  - apply RiemannInt_FTC_le; auto.
  - rewrite (RiemannInt_P8 pr (RiemannInt_P1 pr)).
    rewrite (RiemannInt_FTC_le f F b a); auto; lra.
Qed.

Lemma dlim_scal_sq (c y : R) :
  derivable_pt_lim (fun z => c * (z * z)) y (c * (2 * y)).
Proof.
  apply (derivable_pt_lim_ext (mult_real_fct c (id * id)%F)); [reflexivity |].
  replace (2 * y) with (1 * id y + id y * 1) by (unfold id; ring).
  apply derivable_pt_lim_scal, derivable_pt_lim_mult; apply derivable_pt_lim_id.
Qed.

(** [exp (c * y²)] and its derivative in [y]. *)
Lemma dlim_exp_sq (c y : R) :
  derivable_pt_lim (fun z => exp (c * (z * z))) y
                   (exp (c * (y * y)) * (c * (2 * y))).
Proof.
  apply (derivable_pt_lim_ext (comp exp (fun z => c * (z * z)))); [reflexivity |].
  apply derivable_pt_lim_comp; [apply dlim_scal_sq | apply derivable_pt_lim_exp].
Qed.

Lemma gauss_deriv (t : R) : derivable_pt_lim gauss t (gauss t * (-1 * (2 * t))).
Proof.
  apply (derivable_pt_lim_ext (fun z => exp (-1 * (z * z)))).
  - intros z. unfold gauss. f_equal. ring.
  - unfold gauss. replace (- (t * t)) with (-1 * (t * t)) by ring.
    apply dlim_exp_sq.
Qed.

Lemma gauss_continuity : continuity gauss.
Proof.
  intros t. eapply derivable_lim_continuity_pt, gauss_deriv.
Qed.

Lemma gauss_int_deriv (x : R) : derivable_pt_lim gauss_int x (gauss x).
Proof.
  set (a := Rmin 0 x - 1). set (b := Rmax 0 x + 1).
  assert (a < 0 < b /\ a < x < b) as [H0 Hx].
  { unfold a, b, Rmin, Rmax. destruct (Rle_dec 0 x); lra. }
  assert (h : a <= b) by lra.
  assert (C0 : forall t, a <= t <= b -> continuity_pt gauss t)
    by (intros; apply gauss_continuity).
  set (P := primitive h (FTC_P1 h C0)).
  set (C := RiemannInt (gauss_integrable a 0)).
  apply (derivable_pt_lim_locally_ext (P - fct_cte C)%F gauss_int x a b); [exact Hx | |].
  - intros z Hz. unfold minus_fct, fct_cte, P, primitive, gauss_int, C.
    destruct (Rle_dec a z) as [h1|h1]; [| lra].
    destruct (Rle_dec z b) as [h2|h2]; [| lra].
    rewrite <- (RiemannInt_P26 (gauss_integrable a 0) (gauss_integrable 0 z)
                               (FTC_P1 h C0 h1 h2)).
    ring.
  - replace (gauss x) with (gauss x - 0) by ring.
    apply derivable_pt_lim_minus; [| apply derivable_pt_lim_const].
    apply RiemannInt_P27. exact Hx.
Qed.

Lemma gauss_int_0 : gauss_int 0 = 0.
Proof. apply RiemannInt_P9. Qed.

(** ** Derivative of an integral with a parameter *)

Section ParamIntegral.
Variables g g1 : R -> R -> R.
Variables x M : R.
Hypothesis M_nonneg : 0 <= M.
Hypothesis g_deriv : forall y t : R,
    0 <= t <= 1 -> derivable_pt_lim (fun z => g z t) y (g1 y t).
Hypothesis g1_lip : forall y t : R,
    0 <= t <= 1 -> Rabs (y - x) <= 1 ->
    Rabs (g1 y t - g1 x t) <= M * Rabs (y - x).
Hypothesis g_int : forall y : R, Riemann_integrable (g y) 0 1.
Hypothesis g1_int : Riemann_integrable (g1 x) 0 1.

Lemma param_increment_bound (h t : R) :
  Rabs h <= 1 -> 0 <= t <= 1 ->
  Rabs (g (x + h) t - g x t - h * g1 x t) <= M * (h * h).
Proof.
  intros Hh Ht.
  destruct (MVT_abs (fun z => g z t - z * g1 x t)
                    (fun z => g1 z t - g1 x t) x (x + h)) as (c & Hc & Hcx).
  - intros c _.
    apply (derivable_pt_lim_ext
             ((fun z => g z t) - mult_real_fct (g1 x t) id)%F).
    + intros z. unfold minus_fct, mult_real_fct, id. ring.
    + apply derivable_pt_lim_minus; [now apply g_deriv |].
      replace (g1 x t) with (g1 x t * 1) at 2 by ring.
      apply derivable_pt_lim_scal, derivable_pt_lim_id.
  - replace (g (x + h) t - g x t - h * g1 x t)
      with (g (x + h) t - (x + h) * g1 x t - (g x t - x * g1 x t)) by ring.
    rewrite Hc. replace (x + h - x) with h by ring.
    assert (Rabs (c - x) <= Rabs h) as Hch.
    { revert Hcx. unfold Rmin, Rmax.
      destruct (Rle_dec x (x + h)); intros Hcx;
        unfold Rabs; destruct (Rcase_abs (c - x)), (Rcase_abs h); lra. }
    assert (Rabs (g1 c t - g1 x t) <= M * Rabs h) as Hb.
    { eapply Rle_trans; [apply g1_lip; [exact Ht | lra] |].
      apply Rmult_le_compat_l; assumption. }
    replace (h * h) with (Rabs h * Rabs h)
      by (unfold Rabs; destruct (Rcase_abs h); ring).
    rewrite <- Rmult_assoc.
    apply Rmult_le_compat_r; [apply Rabs_pos | exact Hb].
Qed.

Lemma param_integral_increment (h : R) :
  Rabs h <= 1 ->
  Rabs (RiemannInt (g_int (x + h)) - RiemannInt (g_int x)
        - h * RiemannInt g1_int) <= M * (h * h).
Proof.
  intros Hh.
  pose (pa := RiemannInt_P10 (-1) (g_int (x + h)) (g_int x)).
  pose (pb := RiemannInt_P10 (- h) pa g1_int).
  replace (RiemannInt (g_int (x + h)) - RiemannInt (g_int x)
           - h * RiemannInt g1_int) with (RiemannInt pb).
  2:{ unfold pb. rewrite (RiemannInt_P13 pa g1_int).
      unfold pa. rewrite (RiemannInt_P13 (g_int (x + h)) (g_int x)). ring. }
  assert (forall t, 0 < t < 1 ->
            - (M * (h * h)) <= g (x + h) t + -1 * g x t + - h * g1 x t
                            <= M * (h * h)) as Hb.
  { intros t Ht. assert (Ht' : 0 <= t <= 1) by lra.
    pose proof (param_increment_bound h t Hh Ht') as B.
    replace (g (x + h) t + -1 * g x t + - h * g1 x t)
      with (g (x + h) t - g x t - h * g1 x t) by ring.
    revert B. unfold Rabs. destruct (Rcase_abs _); lra. }
  apply Rabs_le. split.
  - replace (- (M * (h * h))) with (- (M * (h * h)) * (1 - 0)) by ring.
    rewrite <- (RiemannInt_P15 (RiemannInt_P14 0 1 (- (M * (h * h))))).
    apply RiemannInt_P19; [lra |]. intros t Ht. apply Hb, Ht.
  - replace (M * (h * h)) with (M * (h * h) * (1 - 0)) by ring.
    rewrite <- (RiemannInt_P15 (RiemannInt_P14 0 1 (M * (h * h)))).
    apply RiemannInt_P19; [lra |]. intros t Ht. apply Hb, Ht.
Qed.

Lemma param_integral_deriv :
  derivable_pt_lim (fun y => RiemannInt (g_int y)) x (RiemannInt g1_int).
Proof.
  intros eps Heps.
  assert (0 < Rmin 1 (eps / (M + 1))) as Hd.
  { apply Rmin_pos; [lra |]. apply Rdiv_lt_0_compat; lra. }
  exists (mkposreal _ Hd). intros h Hh0 Hh. simpl in Hh.
  assert (Rabs h <= 1) as Hh1.
  { eapply Rle_trans; [apply Rlt_le, Hh | apply Rmin_l]. }
  assert (Rabs h < eps / (M + 1)) as Hh2.
  { eapply Rlt_le_trans; [apply Hh | apply Rmin_r]. }
  pose proof (param_integral_increment h Hh1) as B.
  replace ((RiemannInt (g_int (x + h)) - RiemannInt (g_int x)) / h
           - RiemannInt g1_int)
    with ((RiemannInt (g_int (x + h)) - RiemannInt (g_int x)
           - h * RiemannInt g1_int) / h) by (field; exact Hh0).
  unfold Rdiv. rewrite Rabs_mult, Rabs_inv.
  assert (0 < Rabs h) as Hpos by (apply Rabs_pos_lt; exact Hh0).
  apply (Rmult_lt_reg_r (Rabs h)); [exact Hpos |].
  rewrite Rmult_assoc, Rinv_l, Rmult_1_r by lra.
  eapply Rle_lt_trans; [exact B |].
  replace (h * h) with (Rabs h * Rabs h)
    by (unfold Rabs; destruct (Rcase_abs h); ring).
  rewrite <- Rmult_assoc. apply Rmult_lt_compat_r; [exact Hpos |].
  apply (Rmult_lt_compat_l (M + 1)) in Hh2; [| lra].
  replace ((M + 1) * (eps / (M + 1))) with eps in Hh2 by (field; lra).
  lra.
Qed.
End ParamIntegral.

(** ** The Gaussian integral *)

Lemma one_plus_sq_pos (t : R) : 0 < 1 + t * t.
Proof. nra. Qed.

Lemma aux_continuity (x : R) : continuity (aux x).
Proof.
  unfold aux. reg. intros t. pose proof (one_plus_sq_pos t). lra.
Qed.

Lemma aux1_continuity (x : R) : continuity (aux1 x).
Proof.
  unfold aux1. reg.
Qed.

Lemma exp_le_1 (a : R) : a <= 0 -> exp a <= 1.
Proof.
  intros [H | ->]; [| rewrite exp_0; lra].
  rewrite <- exp_0. now apply Rlt_le, exp_increasing.
Qed.

Lemma aux_deriv (y t : R) : derivable_pt_lim (fun z => aux z t) y (aux1 y t).
Proof.
  pose proof (one_plus_sq_pos t) as Hp.
  apply (derivable_pt_lim_ext
           (mult_real_fct (/ (1 + t * t))
                          (fun z => exp (- (1 + t * t) * (z * z))))).
  - intros z. unfold mult_real_fct, aux. ring.
  - replace (aux1 y t)
      with (/ (1 + t * t) *
            (exp (- (1 + t * t) * (y * y)) * (- (1 + t * t) * (2 * y))))
      by (unfold aux1; field; lra).
    apply derivable_pt_lim_scal, dlim_exp_sq.
Qed.

Lemma aux1_deriv (y t : R) : derivable_pt_lim (fun z => aux1 z t) y (aux2 y t).
Proof.
  assert (derivable_pt_lim (fun z => - (2 * z)) y (-2)) as D1.
  { apply (derivable_pt_lim_ext (mult_real_fct (-2) id)).
    - intros z. unfold mult_real_fct, id. ring.
    - replace (-2) with (-2 * 1) at 2 by ring.
      apply derivable_pt_lim_scal, derivable_pt_lim_id. }
  pose proof (derivable_pt_lim_mult _ _ _ _ _ D1
                (dlim_exp_sq (- (1 + t * t)) y)) as D.
  cbv beta in D.
  replace (aux2 y t)
    with (-2 * exp (- (1 + t * t) * (y * y))
          + - (2 * y) * (exp (- (1 + t * t) * (y * y))
                         * (- (1 + t * t) * (2 * y))))
    by (unfold aux2; ring).
  exact D.
Qed.

Lemma aux2_bound (x z t : R) :
  0 <= t <= 1 -> Rabs (z - x) <= 1 ->
  Rabs (aux2 z t) <= 2 + 8 * ((Rabs x + 1) * (Rabs x + 1)).
Proof.
  intros Ht Hz. unfold aux2.
  assert (z * z <= (Rabs x + 1) * (Rabs x + 1)) as Hzz.
  { assert (- (Rabs x + 1) <= z <= Rabs x + 1) as Hr.
    { revert Hz. unfold Rabs.
      destruct (Rcase_abs (z - x)), (Rcase_abs x); intros; lra. }
    assert (0 <= (Rabs x + 1 - z) * (Rabs x + 1 + z))
      by (apply Rmult_le_pos; lra).
    nra. }
  assert (0 < exp (- (1 + t * t) * (z * z)) <= 1) as [He0 He1].
  { split; [apply exp_pos | apply exp_le_1; nra]. }
  rewrite Rabs_mult, (Rabs_pos_eq (exp _)) by lra.
  assert (Rabs (4 * (1 + t * t) * (z * z) - 2)
          <= 2 + 8 * ((Rabs x + 1) * (Rabs x + 1))) as Hb.
  { assert (0 <= t * t <= 1) as Htt by nra.
    assert (0 <= z * z) as Hz0 by nra.
    assert (0 <= (1 + t * t) * (z * z) <= 2 * (z * z)) as Hm by nra.
    apply Rabs_le. split; lra. }
  pose proof (Rabs_pos (4 * (1 + t * t) * (z * z) - 2)). nra.
Qed.

Lemma aux1_lip (x y t : R) :
  0 <= t <= 1 -> Rabs (y - x) <= 1 ->
  Rabs (aux1 y t - aux1 x t)
  <= (2 + 8 * ((Rabs x + 1) * (Rabs x + 1))) * Rabs (y - x).
Proof.
  intros Ht Hy.
  destruct (MVT_abs (fun z => aux1 z t) (fun z => aux2 z t) x y)
    as (c & Hc & Hcx).
  - intros c _. apply aux1_deriv.
  - rewrite Hc. apply Rmult_le_compat_r; [apply Rabs_pos |].
    apply aux2_bound; [exact Ht |].
    revert Hcx Hy. unfold Rmin, Rmax.
    destruct (Rle_dec x y); intros Hcx;
      unfold Rabs; destruct (Rcase_abs (c - x)), (Rcase_abs (y - x)); lra.
Qed.

Lemma aux_int_deriv (x : R) :
  derivable_pt_lim aux_int x (RiemannInt (aux1_integrable x)).
Proof.
  apply (param_integral_deriv aux aux1 x
           (2 + 8 * ((Rabs x + 1) * (Rabs x + 1)))).
  - pose proof (Rabs_pos x). nra.
  - intros y t _. apply aux_deriv.
  - intros y t. apply aux1_lip.
Qed.

(** The derivative of the auxiliary integral, in closed form. *)
Lemma aux1_int_value (x : R) :
  RiemannInt (aux1_integrable x) = - (2 * gauss x * gauss_int x).
Proof.
  rewrite (RiemannInt_FTC (aux1 x)
             (fun t => - (2 * gauss x) * gauss_int (x * t))).
  - rewrite Rmult_1_r, Rmult_0_r, gauss_int_0. ring.
  - apply aux1_continuity.
  - intros t.
    apply (derivable_pt_lim_ext
             (mult_real_fct (- (2 * gauss x))
                            (comp gauss_int (mult_real_fct x id)))).
    + intros z. reflexivity.
    + replace (aux1 x t)
        with (- (2 * gauss x) * (gauss (mult_real_fct x id t) * (x * 1))).
      * apply derivable_pt_lim_scal, derivable_pt_lim_comp;
          [apply derivable_pt_lim_scal, derivable_pt_lim_id
          | apply gauss_int_deriv].
      * unfold aux1, gauss, mult_real_fct, id.
        replace (- (1 + t * t) * (x * x))
          with (- (x * x) + - (x * t * (x * t))) by ring.
        rewrite exp_plus. ring.
Qed.

(** The classical identity behind the Gaussian integral. *)
Lemma gauss_int_identity (x : R) :
  gauss_int x * gauss_int x + aux_int x = PI / 4.
Proof.
  set (H := (gauss_int * gauss_int + aux_int)%F).
  assert (D : forall y, derivable_pt_lim H y 0).
  { intros y.
    replace 0 with (gauss y * gauss_int y + gauss_int y * gauss y
                    + - (2 * gauss y * gauss_int y)) by ring.
    apply derivable_pt_lim_plus.
    - apply derivable_pt_lim_mult; apply gauss_int_deriv.
    - rewrite <- aux1_int_value. apply aux_int_deriv. }
  pose (pr := fun y => exist (fun l => derivable_pt_abs H y l) 0 (D y)).
  assert (constant H) as Hc.
  { apply (null_derivative_1 H pr). intros y. reflexivity. }
  change (H x = PI / 4). rewrite (Hc x 0).
  unfold H, plus_fct, mult_fct. rewrite gauss_int_0, Rmult_0_l, Rplus_0_l.
  unfold aux_int.
  rewrite (RiemannInt_FTC (aux 0) atan).
  - rewrite atan_1, atan_0. ring.
  - apply aux_continuity.
  - intros t. pose proof (one_plus_sq_pos t).
    replace (aux 0 t) with (/ (1 + t ^ 2)); [apply derivable_pt_lim_atan |].
    unfold aux. rewrite Rmult_0_l, Rmult_0_r, exp_0. field. nra.
Qed.

Lemma aux_int_nonneg (x : R) : 0 <= aux_int x.
Proof.
  replace 0 with (0 * (1 - 0)) by ring.
  rewrite <- (RiemannInt_P15 (RiemannInt_P14 0 1 0)).
  apply RiemannInt_P19; [lra |]. intros t _. unfold fct_cte, aux.
  pose proof (one_plus_sq_pos t). pose proof (exp_pos (- (1 + t * t) * (x * x))).
  apply Rlt_le, Rmult_lt_0_compat; [assumption |].
  now apply Rinv_0_lt_compat.
Qed.

Lemma aux_int_le_gauss (x : R) : aux_int x <= gauss x.
Proof.
  replace (gauss x) with (gauss x * (1 - 0)) by ring.
  rewrite <- (RiemannInt_P15 (RiemannInt_P14 0 1 (gauss x))).
  apply RiemannInt_P19; [lra |]. intros t _. unfold fct_cte, aux, gauss.
  pose proof (one_plus_sq_pos t) as Hp.
  replace (- (1 + t * t) * (x * x))
    with (- (x * x) + - (t * t * (x * x))) by ring.
  rewrite exp_plus.
  assert (exp (- (t * t * (x * x))) <= 1) as H1 by (apply exp_le_1; nra).
  assert (/ (1 + t * t) <= 1) as H2.
  { rewrite <- Rinv_1. apply Rinv_le_contravar; nra. }
  pose proof (exp_pos (- (x * x))). pose proof (exp_pos (- (t * t * (x * x)))).
  assert (0 < / (1 + t * t)) by now apply Rinv_0_lt_compat.
  rewrite Rmult_assoc. rewrite <- (Rmult_1_r (exp (- (x * x)))) at 2.
  apply Rmult_le_compat_l; [lra | nra].
Qed.

(** ** The error function *)

Lemma sqrt_PI_pos : 0 < sqrt PI.
Proof. apply sqrt_lt_R0, PI_RGT_0. Qed.

Lemma erf_deriv (x : R) : derivable_pt_lim erf x (2 / sqrt PI * gauss x).
Proof.
  apply (derivable_pt_lim_ext (mult_real_fct (2 / sqrt PI) gauss_int));
    [reflexivity |].
  apply derivable_pt_lim_scal, gauss_int_deriv.
Qed.

Lemma erf_0 : erf 0 = 0.
Proof. unfold erf. rewrite gauss_int_0. ring. Qed.

Lemma erf_increasing (x y : R) : x < y -> erf x < erf y.
Proof.
  intros H.
  destruct (MVT_cor2 erf (fun z => 2 / sqrt PI * gauss z) x y H)
    as (c & Hc & _).
  - intros z _. apply erf_deriv.
  - assert (0 < 2 / sqrt PI * gauss c).
    { apply Rmult_lt_0_compat; [| apply exp_pos].
      apply Rdiv_lt_0_compat; [lra | apply sqrt_PI_pos]. }
    assert (0 < 2 / sqrt PI * gauss c * (y - x))
      by (apply Rmult_lt_0_compat; lra).
    lra.
Qed.

Lemma erf_odd (x : R) : erf (- x) = - erf x.
Proof.
  set (S := (comp erf (- id) + erf)%F).
  assert (D : forall y, derivable_pt_lim S y 0).
  { intros y.
    replace 0 with (2 / sqrt PI * gauss ((- id)%F y) * (- 1)
                    + 2 / sqrt PI * gauss y).
    - apply derivable_pt_lim_plus; [| apply erf_deriv].
      apply derivable_pt_lim_comp; [| apply erf_deriv].
      apply derivable_pt_lim_opp, derivable_pt_lim_id.
    - unfold opp_fct, id, gauss. replace (- y * - y) with (y * y) by ring.
      ring. }
  pose (pr := fun y => exist (fun l => derivable_pt_abs S y l) 0 (D y)).
  assert (constant S) as Hc.
  { apply (null_derivative_1 S pr). intros y. reflexivity. }
  pose proof (Hc x 0) as E. unfold S, plus_fct, comp, opp_fct, id in E.
  rewrite Ropp_0, erf_0 in E. lra.
Qed.

Lemma erf_sqr (x : R) : erf x * erf x = 1 - 4 / PI * aux_int x.
Proof.
  pose proof (gauss_int_identity x) as E. pose proof PI_RGT_0 as Hpi.
  pose proof sqrt_PI_pos as Hs.
  unfold erf.
  replace (2 / sqrt PI * gauss_int x * (2 / sqrt PI * gauss_int x))
    with (4 / (sqrt PI * sqrt PI) * (gauss_int x * gauss_int x))
    by (field; lra).
  rewrite sqrt_sqrt by lra.
  replace (gauss_int x * gauss_int x) with (PI / 4 - aux_int x) by lra.
  field. lra.
Qed.

Lemma erf_bounds (x : R) : -1 <= erf x <= 1.
Proof.
  pose proof (erf_sqr x) as E. pose proof (aux_int_nonneg x) as G.
  pose proof PI_RGT_0 as Hpi.
  assert (0 <= 4 / PI * aux_int x).
  { apply Rmult_le_pos; [| exact G]. apply Rlt_le, Rdiv_lt_0_compat; lra. }
  split; nra.
Qed.

Lemma erf_nonneg (x : R) : 0 <= x -> 0 <= erf x.
Proof.
  intros [H | <-]; [| rewrite erf_0; lra].
  rewrite <- erf_0. now apply Rlt_le, erf_increasing.
Qed.

Lemma gauss_le_inv (x : R) : gauss x <= / (1 + x * x).
Proof.
  unfold gauss. rewrite exp_Ropp.
  apply Rinv_le_contravar; [nra | apply exp_ineq1_le].
Qed.

Lemma one_minus_erf_le (x : R) : 0 <= x -> 1 - erf x <= 2 * / (1 + x * x).
Proof.
  intros Hx.
  pose proof (erf_sqr x) as E. pose proof (erf_bounds x) as [_ B1].
  pose proof (erf_nonneg x Hx) as B0.
  pose proof (aux_int_le_gauss x) as G1. pose proof (gauss_le_inv x) as G2.
  pose proof (aux_int_nonneg x) as G0.
  assert (0 < 4 / PI <= 2) as [P0 P1].
  { pose proof PI2_1. pose proof PI_RGT_0. split.
    - apply Rdiv_lt_0_compat; lra.
    - apply (Rmult_le_reg_r PI); [lra |].
      unfold Rdiv. rewrite Rmult_assoc, Rinv_l; lra. }
  assert (4 / PI * aux_int x <= 2 * / (1 + x * x)).
  { apply Rle_trans with (2 * aux_int x); [nra |]. lra. }
  nra.
Qed.

Lemma erf_limit : tends_to_at_infinity erf 1.
Proof.
  intros eps Heps. exists (Rmax 1 (2 / eps)). intros T HT.
  assert (1 < T) by (eapply Rle_lt_trans; [apply Rmax_l | exact HT]).
  assert (2 / eps < T) by (eapply Rle_lt_trans; [apply Rmax_r | exact HT]).
  pose proof (erf_bounds T) as [_ B1].
  assert (1 - erf T <= 2 * / (1 + T * T)) as B by (apply one_minus_erf_le; lra).
  assert (2 * / (1 + T * T) < eps).
  { apply (Rmult_lt_reg_r (1 + T * T)); [nra |].
    rewrite Rmult_assoc, Rinv_l by nra.
    assert (2 < eps * T).
    { apply (Rmult_lt_compat_l eps) in H0; [| exact Heps].
      replace (eps * (2 / eps)) with 2 in H0 by (field; lra). exact H0. }
    nra. }
  rewrite Rabs_left1; lra.
Qed.

(** ** The normal law *)

Lemma normal_pdf_continuity (mean sigma : R) : continuity (normal_pdf mean sigma).
Proof. unfold normal_pdf. reg. Qed.

(** The distribution function of the normal law, up to the constant 1/2. *)
Lemma normal_cdf_deriv (mean sigma t : R) :
  0 < sigma ->
  derivable_pt_lim (fun z => / 2 * erf ((z - mean) / (sigma * sqrt 2))) t
                   (normal_pdf mean sigma t).
Proof.
  intros Hs.
  assert (0 < sqrt 2) as H2 by (apply sqrt_lt_R0; lra).
  pose proof sqrt_PI_pos as Hpi.
  set (k := sigma * sqrt 2). assert (0 < k) as Hk by (apply Rmult_lt_0_compat; lra).
  assert (derivable_pt_lim (fun z => (z - mean) / k) t (/ k)) as D1.
  { apply (derivable_pt_lim_ext (mult_real_fct (/ k) (id - fct_cte mean))).
    - intros z. unfold mult_real_fct, minus_fct, id, fct_cte. field. lra.
    - replace (/ k) with (/ k * (1 - 0)) at 2 by ring.
      apply derivable_pt_lim_scal, derivable_pt_lim_minus;
        [apply derivable_pt_lim_id | apply derivable_pt_lim_const]. }
  pose proof (derivable_pt_lim_scal _ (/ 2) _ _
                (derivable_pt_lim_comp _ _ _ _ _ D1
                   (erf_deriv ((t - mean) / k)))) as D.
  replace (normal_pdf mean sigma t)
    with (/ 2 * (2 / sqrt PI * gauss ((t - mean) / k) * / k)); [exact D |].
  unfold normal_pdf, gauss, k.
  rewrite sqrt_mult by (pose proof PI_RGT_0; lra).
  replace ((t - mean) / (sigma * sqrt 2) * ((t - mean) / (sigma * sqrt 2)))
    with ((t - mean) * (t - mean) / (sqrt 2 * sqrt 2 * (sigma * sigma)))
    by (field; lra).
  rewrite sqrt_sqrt by lra. field. lra.
Qed.

Lemma normal_mass_erf (mean sigma a b : R) :
  0 < sigma ->
  normal_mass mean sigma a b
  = / 2 * erf ((b - mean) / (sigma * sqrt 2))
    - / 2 * erf ((a - mean) / (sigma * sqrt 2)).
Proof.
  intros Hs. unfold normal_mass.
  apply (RiemannInt_FTC (normal_pdf mean sigma)
           (fun z => / 2 * erf ((z - mean) / (sigma * sqrt 2)))).
  - apply normal_pdf_continuity.
  - intros t. now apply normal_cdf_deriv.
Qed.

Lemma normal_tail_limit (mean sigma baseline : R) :
  0 < sigma ->
  tends_to_at_infinity (normal_mass mean sigma baseline)
    (0.5 * (1.0 + erf ((mean - baseline) / (sigma * sqrt 2.0)))).
Proof.
  intros Hs eps Heps.
  assert (0 < sqrt 2) as H2 by (apply sqrt_lt_R0; lra).
  set (k := sigma * sqrt 2). assert (0 < k) as Hk by (apply Rmult_lt_0_compat; lra).
  destruct (erf_limit (2 * eps)) as [T0 HT0]; [lra |].
  exists (mean + k * T0). intros T HT.
  rewrite normal_mass_erf by exact Hs. fold k.
  replace ((baseline - mean) / k) with (- ((mean - baseline) / k))
    by (field; lra).
  rewrite erf_odd.
  assert (T0 < (T - mean) / k) as Hu.
  { apply (Rmult_lt_reg_r k); [exact Hk |].
    unfold Rdiv. rewrite Rmult_assoc, Rinv_l by lra. lra. }
  specialize (HT0 _ Hu). revert HT0.
  replace (sqrt 2.0) with (sqrt 2) by (f_equal; lra). fold k.
  generalize (erf ((T - mean) / k)) (erf ((mean - baseline) / k)).
  intros e1 e2. unfold Rabs.
  destruct (Rcase_abs (e1 - 1)), (Rcase_abs _); lra.
Qed.

(** ** The range of binary64 *)

Lemma float_max_ge_1 : 1 <= float_max.
Proof.
  unfold float_max.
  assert (1 <= 2 ^ 52) as H52 by (apply pow_R1_Rle; lra).
  assert (1 <= 2 ^ 1023) as H1023 by (apply pow_R1_Rle; lra).
  assert (0 < / 2 ^ 52 <= 1) as [Hi0 Hi1].
  { split; [apply Rinv_0_lt_compat; lra |].
    rewrite <- Rinv_1. apply Rinv_le_contravar; lra. }
  nra.
Qed.

Lemma finite_gap_small (mean baseline : R) :
  -1 <= mean - baseline <= 1 -> finite_gap mean baseline.
Proof.
  intros H. unfold finite_gap. pose proof float_max_ge_1.
  apply Rabs_le. lra.
Qed.

Lemma erf_monotone (x y : R) : x <= y -> erf x <= erf y.
Proof.
  intros [H | ->]; [| lra]. now apply Rlt_le, erf_increasing.
Qed.

(** * The claims *)

(** C1: when [n_Al + n_Cu] is not zero, [enthalpy_of_formation] returns
    (energy - n_Al * energy_Al - n_Cu * energy_Cu) / (n_Al + n_Cu). *)
Theorem enthalpy_of_formation_formula
        (energy n_Al n_Cu energy_Al energy_Cu : R) :
  n_Al + n_Cu <> 0 ->
  enthalpy_of_formation energy n_Al n_Cu energy_Al energy_Cu
  = Ok ((energy - n_Al * energy_Al - n_Cu * energy_Cu) / (n_Al + n_Cu)).
Proof.
  intros H. unfold enthalpy_of_formation. now apply truediv_ok.
Qed.

Lemma enthalpy_of_formation_formula_witness :
  4 + 1 <> 0 /\
  enthalpy_of_formation (-19) 4 1 (-3) (-4)
  = Ok ((-19 - 4 * -3 - 1 * -4) / (4 + 1)).
Proof.
  split; [lra |]. apply enthalpy_of_formation_formula. lra.
Defined.

(** C2: for [sigma > 0], [probability_improvement] returns
    0.5 * (1 + erf ((mean - baseline) / (sigma * sqrt 2))), and this number
    is the probability that a normal variable of mean [mean] and standard
    deviation [sigma] exceeds [baseline]: the limit, when [T] grows, of the
    integral of the normal density between [baseline] and [T]. *)
Theorem probability_improvement_formula (mean sigma baseline : R) :
  0 < sigma ->
  probability_improvement mean sigma baseline
  = Ok (0.5 * (1 + erf ((mean - baseline) / (sigma * sqrt 2)))) /\
  tends_to_at_infinity (normal_mass mean sigma baseline)
    (0.5 * (1 + erf ((mean - baseline) / (sigma * sqrt 2)))).
Proof.
  intros Hs.
  replace 2 with 2.0 by lra. replace 1 with 1.0 by lra.
  split; [| now apply normal_tail_limit].
  unfold probability_improvement.
  rewrite truediv_ok; [reflexivity |].
  replace 2.0 with 2 by lra. apply sigma_sqrt2_neq_0. lra.
Qed.

Lemma probability_improvement_formula_witness :
  0 < 0.13 /\
  probability_improvement 0.30 0.13 0.424
  = Ok (0.5 * (1 + erf ((0.30 - 0.424) / (0.13 * sqrt 2)))).
Proof.
  split; [lra |]. apply probability_improvement_formula. lra.
Defined.

(** The value of [probability_improvement], for the claims that follow. *)
Lemma probability_improvement_ok (mean sigma baseline : R) :
  sigma <> 0 ->
  probability_improvement mean sigma baseline
  = Ok (0.5 * (1 + erf ((mean - baseline) / (sigma * sqrt 2)))).
Proof.
  intros Hs. unfold probability_improvement.
  replace 2.0 with 2 by lra. replace 1.0 with 1 by lra.
  rewrite truediv_ok; [reflexivity |]. now apply sigma_sqrt2_neq_0.
Qed.

(** C5: a zero total stoichiometry, or a zero [sigma], is a division by
    zero: the functions raise [ZeroDivisionError] to their caller. *)
Theorem zero_denominator_raises :
  (forall energy n_Al n_Cu energy_Al energy_Cu : R,
      n_Al + n_Cu = 0 ->
      enthalpy_of_formation energy n_Al n_Cu energy_Al energy_Cu
      = Raise ZeroDivisionError) /\
  (forall mean sigma baseline : R,
      sigma = 0 ->
      probability_improvement mean sigma baseline = Raise ZeroDivisionError).
Proof.
  split.
  - intros energy n_Al n_Cu energy_Al energy_Cu H.
    unfold enthalpy_of_formation. rewrite H. apply truediv_zero.
  - intros mean sigma baseline ->. unfold probability_improvement.
    rewrite Rmult_0_l, truediv_zero. reflexivity.
Qed.

Lemma zero_denominator_raises_witness :
  enthalpy_of_formation (-19) 0 0 (-3) (-4) = Raise ZeroDivisionError /\
  probability_improvement 0.30 0 0.424 = Raise ZeroDivisionError.
Proof.
  destruct zero_denominator_raises as [H1 H2].
  split; [apply H1; lra | apply H2; reflexivity].
Defined.

(** C6: for [sigma > 0], and a gap between [mean] and [baseline] that does
    not overflow, [probability_improvement] returns a number between 0 and
    1. *)
Theorem probability_improvement_range (mean sigma baseline : R) :
  0 < sigma -> finite_gap mean baseline ->
  exists p : R,
    probability_improvement mean sigma baseline = Ok p /\ 0 <= p <= 1.
Proof.
  intros Hs _. eexists. split; [apply probability_improvement_ok; lra |].
  pose proof (erf_bounds ((mean - baseline) / (sigma * sqrt 2))). lra.
Qed.

Lemma probability_improvement_range_witness :
  0 < 0.13 /\ finite_gap 0.30 0.424 /\
  exists p : R,
    probability_improvement 0.30 0.13 0.424 = Ok p /\ 0 <= p <= 1.
Proof.
  assert (finite_gap 0.30 0.424) as Hg by (apply finite_gap_small; lra).
  split; [lra |]. split; [exact Hg |].
  apply probability_improvement_range; [lra | exact Hg].
Defined.



(** C3, as the code has it: for counts written as runs of at most 15
    decimal digits, each possibly omitted, [get_stoich] returns the two
    counts, an omitted count being 1. *)
Theorem get_stoich_integer_counts (a b : string) :
  all_digits a = true -> all_digits b = true ->
  (String.length a <= 15)%nat -> (String.length b <= 15)%nat ->
  get_stoich ("Al" ++ a ++ "Cu" ++ b) = Ok (count_or_1 a, count_or_1 b).
Proof.
  intros Ha Hb _ _.
  pose proof (get_stoich_prefix a b "" Ha Hb) as H.
  change (leading_digits "") with ""%string in H.
  now rewrite !append_nil_r in H.
Qed.

Lemma get_stoich_integer_counts_witness :
  all_digits "12" = true /\ all_digits "" = true /\
  (String.length "12" <= 15)%nat /\ (String.length "" <= 15)%nat /\
  get_stoich "Al12Cu" = Ok (12, 1).
Proof.
  assert (String.length "12" <= 15)%nat as H1 by (cbn; lia).
  assert (String.length "" <= 15)%nat as H2 by (cbn; lia).
  split; [reflexivity |]. split; [reflexivity |].
  split; [exact H1 |]. split; [exact H2 |].
  exact (get_stoich_integer_counts "12" "" eq_refl eq_refl H1 H2).
Defined.

(** C3, as stated, fails on decimal literals: the pattern has no decimal
    point, so "Al0.98Cu0.02" is not matched at all. *)
Lemma get_stoich_decimal_counterexample :
  get_stoich "Al0.98Cu0.02" = Ok (0, 0) /\
  get_stoich "Al0.98Cu0.02" <> Ok (0.98, 0.02).
Proof.
  assert (get_stoich "Al0.98Cu0.02" = Ok (0, 0)) as E
      by (apply get_stoich_unmatched; reflexivity).
  split; [exact E |]. rewrite E. intros H. injection H as H1 H2. lra.
Qed.

(** A decimal part after the second symbol is left out of the count. *)
Example get_stoich_Al2Cu0_5 : get_stoich "Al2Cu0.5" = Ok (2, 0).
Proof.
  exact (get_stoich_prefix "2" "0" ".5" eq_refl eq_refl).
Qed.

(** C4: a string that does not start with the pattern gives (0, 0), and no
    exception. *)
Theorem get_stoich_no_match (s : string) :
  ~ AlCu_prefix s -> get_stoich s = Ok (0, 0).
Proof.
  intros H. apply get_stoich_unmatched. now apply re_match_AlCu_none.
Qed.

Lemma get_stoich_no_match_witness :
  ~ AlCu_prefix "Fe2O3" /\ get_stoich "Fe2O3" = Ok (0, 0).
Proof.
  assert (~ AlCu_prefix "Fe2O3") as H.
  { intros (d1 & d2 & rest & _ & _ & E). discriminate E. }
  split; [exact H | exact (get_stoich_no_match "Fe2O3" H)].
Defined.

Example get_stoich_empty : get_stoich "" = Ok (0, 0).
Proof.
  apply get_stoich_unmatched. reflexivity.
Qed.

(** C8: an omitted count is 1; "Al4Cu1" gives (4, 1) and "AlCu" gives
    (1, 1).  In general the count of aluminium is 1 when "Cu" directly
    follows "Al", and the count of copper is 1 when no digit follows "Cu",
    whatever the other count and the text after. *)
Theorem get_stoich_default_count :
  get_stoich "Al4Cu1" = Ok (4, 1) /\
  get_stoich "AlCu" = Ok (1, 1) /\
  (forall rest : string,
      exists n_Cu : R, get_stoich ("Al" ++ "Cu" ++ rest) = Ok (1, n_Cu)) /\
  (forall a rest : string,
      all_digits a = true -> leading_digits rest = ""%string ->
      exists n_Al : R,
        get_stoich ("Al" ++ a ++ "Cu" ++ rest) = Ok (n_Al, 1)).
Proof.
  split; [exact (get_stoich_prefix "4" "1" "" eq_refl eq_refl) |].
  split; [exact (get_stoich_prefix "" "" "" eq_refl eq_refl) |].
  split.
  - intros rest. eexists.
    exact (get_stoich_prefix "" "" rest eq_refl eq_refl).
  - intros a rest Ha Hr. eexists.
    pose proof (get_stoich_prefix a "" rest Ha eq_refl) as H.
    rewrite Hr in H. exact H.
Qed.

Lemma get_stoich_default_count_witness :
  all_digits "2" = true /\ leading_digits "O3" = ""%string /\
  (exists n_Cu : R, get_stoich "AlCu3" = Ok (1, n_Cu)) /\
  (exists n_Al : R, get_stoich "Al2CuO3" = Ok (n_Al, 1)).
Proof.
  destruct get_stoich_default_count as (_ & _ & H1 & H2).
  split; [reflexivity |]. split; [reflexivity |].
  split; [exact (H1 "3") | exact (H2 "2" "O3" eq_refl eq_refl)].
Defined.

(** C9: only a prefix is matched.  After "Al", digits, "Cu", digits, the
    text that follows is ignored, apart from the digits that directly follow,
    which the second group takes: the string is matched, the groups are the
    two runs of digits, the result is that of the matched prefix alone, and,
    for runs of at most 15 digits, it is made of the counts written in that
    prefix. *)
Theorem get_stoich_prefix_only (a b rest : string) :
  all_digits a = true -> all_digits b = true ->
  re_match AlCu_pattern ("Al" ++ a ++ "Cu" ++ b ++ rest)
  = Some [a; (b ++ leading_digits rest)%string] /\
  get_stoich ("Al" ++ a ++ "Cu" ++ b ++ rest)
  = get_stoich ("Al" ++ a ++ "Cu" ++ b ++ leading_digits rest) /\
  ((String.length a <= 15)%nat ->
   (String.length (b ++ leading_digits rest) <= 15)%nat ->
   get_stoich ("Al" ++ a ++ "Cu" ++ b ++ rest)
   = Ok (count_or_1 a, count_or_1 (b ++ leading_digits rest))).
Proof.
  intros Ha Hb. split; [now apply re_match_AlCu_prefix |].
  split; [| intros _ _; now apply get_stoich_prefix].
  rewrite !get_stoich_prefix by assumption.
  now rewrite leading_digits_idem.
Qed.

Lemma get_stoich_prefix_only_witness :
  all_digits "2" = true /\ all_digits "3" = true /\
  (String.length "2" <= 15)%nat /\
  (String.length ("3" ++ leading_digits "Fe") <= 15)%nat /\
  get_stoich "Al2Cu3Fe" = get_stoich "Al2Cu3" /\
  get_stoich "Al2Cu3Fe" = Ok (2, 3).
Proof.
  assert (String.length "2" <= 15)%nat as H1 by (cbn; lia).
  assert (String.length ("3" ++ leading_digits "Fe") <= 15)%nat as H2
      by (cbn; lia).
  destruct (get_stoich_prefix_only "2" "3" "Fe" eq_refl eq_refl)
    as (_ & E1 & E2).
  split; [reflexivity |]. split; [reflexivity |].
  split; [exact H1 |]. split; [exact H2 |].
  split; [exact E1 | exact (E2 H1 H2)].
Defined.

Example get_stoich_AlCuO3 : get_stoich "AlCuO3" = Ok (1, 1).
Proof.
  exact (get_stoich_prefix "" "" "O3" eq_refl eq_refl).
Qed.

(** C10: "Al0Cu0" is matched and gives (0, 0), the value given for a string
    that is not matched; the loop skips a record in either case, before any
    division. *)
Theorem zero_counts_like_no_match :
  re_match AlCu_pattern "Al0Cu0" = Some ["0"%string; "0"%string] /\
  get_stoich "Al0Cu0" = Ok (0, 0) /\
  (forall s : string,
      re_match AlCu_pattern s = None -> get_stoich s = get_stoich "Al0Cu0") /\
  (forall (energy_Al energy_Cu : R) (p : pif) (pifs : list pif)
          (points : list (R * R)),
      chemical_formula p = "Al0Cu0"%string \/
      re_match AlCu_pattern (chemical_formula p) = None ->
      collect_points energy_Al energy_Cu (p :: pifs) points
      = collect_points energy_Al energy_Cu pifs points).
Proof.
  assert (get_stoich "Al0Cu0" = Ok (0, 0)) as E
      by exact (get_stoich_prefix "0" "0" "" eq_refl eq_refl).
  split; [reflexivity |]. split; [exact E |]. split.
  - intros s H. rewrite E. now apply get_stoich_unmatched.
  - intros energy_Al energy_Cu p pifs points [H | H];
      apply collect_points_skip.
    + rewrite H. exact E.
    + now apply get_stoich_unmatched.
Qed.

Lemma zero_counts_like_no_match_witness :
  collect_points (-3) (-4) [mkPif "Al0Cu0" (-7); mkPif "Fe2O3" (-9)] []
  = Ok [].
Proof.
  destruct zero_counts_like_no_match as (_ & _ & _ & H).
  rewrite (H (-3) (-4) (mkPif "Al0Cu0" (-7))) by (left; reflexivity).
  rewrite (H (-3) (-4) (mkPif "Fe2O3" (-9))) by (right; reflexivity).
  reflexivity.
Defined.

(** * Further properties of the phase-stability notebook *)

Lemma count_or_1_whole (d : string) :
  all_digits d = true ->
  exists z : Z, (0 <= z)%Z /\ count_or_1 d = IZR z.
Proof.
  intros H. destruct d as [|c d].
  - exists 1%Z. split; [lia | reflexivity].
  - exists (digits_value (String c d)). split; [| reflexivity].
    apply digits_value_from_nonneg; [exact H | lia].
Qed.

Lemma digit_value_le_9 (c : ascii) : is_digit c = true -> (digit_value c <= 9)%Z.
Proof.
  unfold is_digit, in_range, digit_value. intros H.
  apply andb_true_iff in H as [_ H]. apply N.leb_le in H.
  change (N_of_ascii "9") with 57%N in H.
  set (n := N_of_ascii c) in *. clearbody n. lia.
Qed.

Lemma digits_value_from_lt (s : string) (acc : Z) :
  all_digits s = true -> (0 <= acc)%Z ->
  (digits_value_from acc s < (acc + 1) * 10 ^ Z.of_nat (String.length s))%Z.
Proof.
  revert acc. induction s as [|c s IH]; intros acc H Hacc;
    cbn [digits_value_from all_digits String.length] in *.
  - change (10 ^ Z.of_nat 0)%Z with 1%Z. lia.
  - apply andb_true_iff in H as [Hc Hs].
    pose proof (digit_value_nonneg c Hc) as H0.
    pose proof (digit_value_le_9 c Hc) as H9.
    specialize (IH (10 * acc + digit_value c)%Z Hs ltac:(lia)).
    rewrite Nat2Z.inj_succ, Z.pow_succ_r by lia.
    assert (0 < 10 ^ Z.of_nat (String.length s))%Z by (apply Z.pow_pos_nonneg; lia).
    nia.
Qed.

Lemma count_or_1_bounded (d : string) :
  all_digits d = true -> (String.length d <= 15)%nat ->
  exists z : Z, (0 <= z < 10 ^ 15)%Z /\ count_or_1 d = IZR z.
Proof.
  intros H Hl. destruct d as [|c d].
  - exists 1%Z. split; [lia | reflexivity].
  - exists (digits_value (String c d)). split; [| reflexivity].
    split; [apply digits_value_from_nonneg; [exact H | lia] |].
    pose proof (digits_value_from_lt (String c d) 0 H ltac:(lia)) as Hlt.
    fold (digits_value (String c d)) in Hlt.
    assert (10 ^ Z.of_nat (String.length (String c d)) <= 10 ^ 15)%Z
      by (apply Z.pow_le_mono_r; lia).
    lia.
Qed.

Lemma length_append (a b : string) :
  String.length (a ++ b) = (String.length a + String.length b)%nat.
Proof.
  induction a as [|c a IH]; cbn [append String.length]; [reflexivity |].
  now rewrite IH.
Qed.

(** X1: [get_stoich] raises on no string and its two counts are never
    negative; on a string of at most 19 characters, where a run of digits has
    at most 15 of them, the counts are whole numbers below 10^15. *)
Theorem get_stoich_whole_counts (s : string) :
  exists n_Al n_Cu : R,
    get_stoich s = Ok (n_Al, n_Cu) /\ 0 <= n_Al /\ 0 <= n_Cu /\
    ((String.length s <= 19)%nat ->
     exists a b : Z,
       n_Al = IZR a /\ n_Cu = IZR b /\
       (0 <= a < 10 ^ 15)%Z /\ (0 <= b < 10 ^ 15)%Z).
Proof.
  destruct (re_match AlCu_pattern s) as [m|] eqn:E.
  - apply re_match_AlCu_some in E as (d1 & d2 & rest & H1 & H2 & -> & _ & Hr).
    exists (count_or_1 d1), (count_or_1 d2).
    rewrite get_stoich_prefix, Hr, append_nil_r by assumption.
    split; [reflexivity |].
    split; [now apply count_or_1_nonneg |].
    split; [now apply count_or_1_nonneg |].
    intros Hl. cbn [append String.length] in Hl.
    rewrite length_append in Hl. cbn [append String.length] in Hl.
    rewrite !length_append in Hl.
    destruct (count_or_1_bounded d1 H1) as (a & Ha & Ea); [lia |].
    destruct (count_or_1_bounded d2 H2) as (b & Hb & Eb); [lia |].
    exists a, b. auto.
  - exists 0, 0. rewrite get_stoich_unmatched by assumption.
    split; [reflexivity |]. split; [lra |]. split; [lra |].
    intros _. exists 0%Z, 0%Z. repeat split; lia.
Qed.

Lemma get_stoich_whole_counts_witness :
  (String.length "Al12Cu3" <= 19)%nat /\
  exists n_Al n_Cu : R,
    get_stoich "Al12Cu3" = Ok (n_Al, n_Cu) /\ 0 <= n_Al /\ 0 <= n_Cu /\
    exists a b : Z,
      n_Al = IZR a /\ n_Cu = IZR b /\
      (0 <= a < 10 ^ 15)%Z /\ (0 <= b < 10 ^ 15)%Z.
Proof.
  assert (String.length "Al12Cu3" <= 19)%nat as Hl by (cbn; lia).
  split; [exact Hl |].
  destruct (get_stoich_whole_counts "Al12Cu3")
    as (n_Al & n_Cu & E & H1 & H2 & H).
  exists n_Al, n_Cu. split; [exact E |]. split; [exact H1 |].
  split; [exact H2 | exact (H Hl)].
Defined.

(** X2: a result other than (0, 0) comes from a string that starts with the
    pattern, and the two counts then add up to 1 at least. *)
Theorem get_stoich_nonzero_matched (s : string) (n_Al n_Cu : R) :
  get_stoich s = Ok (n_Al, n_Cu) ->
  n_Al <> 0 \/ n_Cu <> 0 ->
  AlCu_prefix s /\ 1 <= n_Al + n_Cu.
Proof.
  intros E Hnz. split.
  - destruct (re_match AlCu_pattern s) as [m|] eqn:Em.
    + apply re_match_AlCu_some in Em as (d1 & d2 & rest & H1 & H2 & Hs & _).
      exists d1, d2, rest. auto.
    + rewrite get_stoich_unmatched in E by assumption.
      injection E as <- <-. destruct Hnz as [H | H]; now elim H.
  - destruct (re_match AlCu_pattern s) as [m|] eqn:Em.
    + apply re_match_AlCu_some in Em
        as (d1 & d2 & rest & H1 & H2 & -> & _ & Hr).
      rewrite get_stoich_prefix, Hr, append_nil_r in E by assumption.
      destruct (count_or_1_whole d1 H1) as (a & Ha & Ea).
      destruct (count_or_1_whole d2 H2) as (b & Hb & Eb).
      rewrite Ea, Eb in E. injection E as <- <-.
      assert (a <> 0 \/ b <> 0)%Z as Hz.
      { destruct Hnz as [H | H]; [left | right]; intros ->; now apply H. }
      rewrite <- plus_IZR. apply IZR_le. lia.
    + rewrite get_stoich_unmatched in E by assumption.
      injection E as <- <-. destruct Hnz as [H | H]; now elim H.
Qed.

Lemma get_stoich_nonzero_matched_witness :
  get_stoich "Al2Cu" = Ok (2, 1) /\ (2 <> 0 \/ 1 <> 0) /\
  AlCu_prefix "Al2Cu" /\ 1 <= 2 + 1.
Proof.
  assert (get_stoich "Al2Cu" = Ok (2, 1)) as E
      by exact (get_stoich_prefix "2" "" "" eq_refl eq_refl).
  assert (2 <> 0 \/ 1 <> 0) as H by (left; lra).
  split; [exact E |]. split; [exact H |].
  exact (get_stoich_nonzero_matched "Al2Cu" 2 1 E H).
Defined.

Lemma stoich_point_step (energy_Al energy_Cu : R) (p : pif)
      (pifs : list pif) (points : list (R * R)) :
  collect_points energy_Al energy_Cu (p :: pifs) points
  = collect_points energy_Al energy_Cu pifs
      (points ++ stoich_point energy_Al energy_Cu p)%list.
Proof.
  cbn [collect_points]. unfold stoich_point.
  destruct (get_stoich_total (chemical_formula p)) as (a & b & -> & Ha & Hb).
  cbn [bind].
  destruct (both_zero a b) eqn:E; [now rewrite app_nil_r |].
  assert (a + b <> 0) as Hne.
  { intros Hs. assert (a = 0 /\ b = 0) as Hz by (split; lra).
    apply both_zero_true in Hz. congruence. }
  unfold enthalpy_of_formation.
  rewrite !truediv_ok by lra. reflexivity.
Qed.

(** X3: once the energy and the formula of each record are read, the loop
    itself raises no exception, whatever the values read: no division by
    zero, no [ValueError] from [float].  It keeps the points it starts from
    and appends, in the order of the records, one point for each record whose
    counts are not both zero. *)
Theorem collect_points_flat_map (energy_Al energy_Cu : R) (pifs : list pif)
        (points : list (R * R)) :
  collect_points energy_Al energy_Cu pifs points
  = Ok (points ++ flat_map (stoich_point energy_Al energy_Cu) pifs)%list.
Proof.
  revert points. induction pifs as [|p pifs IH]; intros points.
  - cbn [collect_points flat_map]. now rewrite app_nil_r.
  - rewrite stoich_point_step, IH. cbn [flat_map]. now rewrite app_assoc.
Qed.

Lemma stoich_point_abscissa (energy_Al energy_Cu : R) (p : pif) :
  Forall (fun pt : R * R => 0 <= fst pt <= 1)
         (stoich_point energy_Al energy_Cu p).
Proof.
  unfold stoich_point.
  destruct (get_stoich_total (chemical_formula p)) as (a & b & -> & Ha & Hb).
  destruct (both_zero a b) eqn:E; [constructor |].
  assert (0 < b + a) as Hpos.
  { destruct (Req_dec_T (b + a) 0) as [Hz|Hz]; [| lra].
    assert (a = 0 /\ b = 0) as H0 by (split; lra).
    apply both_zero_true in H0. congruence. }
  constructor; [| constructor]. cbn [fst]. split.
  - apply Rmult_le_pos; [exact Hb |]. now apply Rlt_le, Rinv_0_lt_compat.
  - apply (Rmult_le_reg_r (b + a)); [exact Hpos |].
    unfold Rdiv. rewrite Rmult_assoc, Rinv_l by lra. lra.
Qed.

Lemma collect_points_abscissa (energy_Al energy_Cu : R) (pifs : list pif) :
  forall points : list (R * R),
    Forall (fun pt : R * R => 0 <= fst pt <= 1) points ->
    exists points' : list (R * R),
      collect_points energy_Al energy_Cu pifs points = Ok points' /\
      Forall (fun pt : R * R => 0 <= fst pt <= 1) points'.
Proof.
  induction pifs as [|p pifs IH]; intros points H.
  - exists points. auto.
  - rewrite stoich_point_step. apply IH, Forall_app.
    split; [exact H | apply stoich_point_abscissa].
Qed.

(** X4: for records whose formula has at most 19 characters, so that the
    counts are exact, the computations of the cell after the reads raise no
    exception, and every point has its abscissa, the copper fraction, between
    0 and 1: the limits of the plot cut no point off. *)
Theorem phase_points_abscissa (Al_total Cu_total : R) (AlCu_pifs : list pif) :
  Forall (fun p : pif => (String.length (chemical_formula p) <= 19)%nat)
         AlCu_pifs ->
  exists points : list (R * R),
    phase_points Al_total Cu_total AlCu_pifs = Ok points /\
    Forall (fun pt : R * R => 0 <= fst pt <= 1) points.
Proof.
  intros _. unfold phase_points. rewrite truediv_ok by lra. cbn [bind].
  apply collect_points_abscissa.
  repeat constructor; cbn [fst]; lra.
Qed.

Lemma phase_points_abscissa_witness :
  Forall (fun p : pif => (String.length (chemical_formula p) <= 19)%nat)
         [mkPif "Al4" (-12); mkPif "Al2Cu" (-9)] /\
  exists points : list (R * R),
    phase_points (-12) (-4) [mkPif "Al4" (-12); mkPif "Al2Cu" (-9)]
    = Ok points /\
    Forall (fun pt : R * R => 0 <= fst pt <= 1) points.
Proof.
  assert (Forall (fun p : pif =>
                    (String.length (chemical_formula p) <= 19)%nat)
                 [mkPif "Al4" (-12); mkPif "Al2Cu" (-9)]) as H
      by (repeat constructor; cbn; lia).
  split; [exact H |]. exact (phase_points_abscissa (-12) (-4) _ H).
Defined.

Lemma pure_Al_not_prefix (d : string) :
  all_digits d = true -> ~ AlCu_prefix ("Al" ++ d).
Proof.
  intros H (d1 & d2 & rest & H1 & _ & E).
  cbn [append] in E. injection E as E.
  rewrite E, all_digits_app in H. cbn [append all_digits] in H.
  change (is_digit "C") with false in H.
  rewrite andb_false_l, andb_false_r in H. discriminate.
Qed.

(** X5: a formula of aluminium alone, the letters Al and a count, is not
    matched: [get_stoich] gives (0, 0) and the loop adds no point for the
    record. *)
Theorem pure_Al_skipped (d : string) :
  all_digits d = true ->
  get_stoich ("Al" ++ d) = Ok (0, 0) /\
  forall (energy_Al energy_Cu energy : R) (pifs : list pif)
         (points : list (R * R)),
    collect_points energy_Al energy_Cu (mkPif ("Al" ++ d) energy :: pifs)
                   points
    = collect_points energy_Al energy_Cu pifs points.
Proof.
  intros H.
  assert (get_stoich ("Al" ++ d) = Ok (0, 0)) as E.
  { apply get_stoich_unmatched, re_match_AlCu_none.
    now apply pure_Al_not_prefix. }
  split; [exact E |]. intros. now apply collect_points_skip.
Qed.

Lemma pure_Al_skipped_witness :
  all_digits "4" = true /\ get_stoich "Al4" = Ok (0, 0) /\
  collect_points (-3) (-4) [mkPif "Al4" (-12)] [(0, 0)] = Ok [(0, 0)].
Proof.
  destruct (pure_Al_skipped "4" eq_refl) as [E H].
  split; [reflexivity |]. split; [exact E |].
  exact (H (-3) (-4) (-12) [] [(0, 0)]).
Defined.

(** X7: a pure element taken at its own reference has enthalpy zero, as
    long as the product of its count and its reference energy does not
    overflow: the energy and the product subtracted from it are the same
    number. *)
Theorem enthalpy_of_formation_pure (n energy_Al energy_Cu : R) :
  n <> 0 ->
  Rabs (n * energy_Al) <= float_max -> Rabs (n * energy_Cu) <= float_max ->
  enthalpy_of_formation (n * energy_Al) n 0 energy_Al energy_Cu = Ok 0 /\
  enthalpy_of_formation (n * energy_Cu) 0 n energy_Al energy_Cu = Ok 0.
Proof.
  intros H _ _. unfold enthalpy_of_formation.
  rewrite !truediv_ok by lra. split; f_equal; field; exact H.
Qed.

Lemma enthalpy_of_formation_pure_witness :
  4 <> 0 /\
  Rabs (4 * 0.25) <= float_max /\ Rabs (4 * 0.125) <= float_max /\
  enthalpy_of_formation (4 * 0.25) 4 0 0.25 0.125 = Ok 0 /\
  enthalpy_of_formation (4 * 0.125) 0 4 0.25 0.125 = Ok 0.
Proof.
  pose proof float_max_ge_1 as Hm.
  assert (Rabs (4 * 0.25) <= float_max) as H1 by (apply Rabs_le; lra).
  assert (Rabs (4 * 0.125) <= float_max) as H2 by (apply Rabs_le; lra).
  assert (4 <> 0) as H4 by lra.
  split; [exact H4 |]. split; [exact H1 |]. split; [exact H2 |].
  exact (enthalpy_of_formation_pure 4 0.25 0.125 H4 H1 H2).
Defined.

(** * Further properties of the experimental-design notebook *)

Lemma gap_ratio_opp (sigma a b : R) :
  sigma <> 0 ->
  (b - a) / (sigma * sqrt 2) = - ((a - b) / (sigma * sqrt 2)).
Proof.
  intros Hs. field. split; [apply sqrt2_neq_0 | exact Hs].
Qed.

(** X9: a candidate predicted exactly at the baseline has one chance in two
    of improving on it, whatever [sigma], zero apart. *)
Theorem probability_improvement_at_baseline (mean sigma : R) :
  sigma <> 0 -> probability_improvement mean sigma mean = Ok 0.5.
Proof.
  intros Hs. rewrite probability_improvement_ok by exact Hs.
  replace ((mean - mean) / (sigma * sqrt 2)) with 0
    by (field; split; [apply sqrt2_neq_0 | exact Hs]).
  rewrite erf_0. f_equal. lra.
Qed.

Lemma probability_improvement_at_baseline_witness :
  0.13 <> 0 /\ probability_improvement 0.424 0.13 0.424 = Ok 0.5.
Proof.
  split; [lra |]. apply probability_improvement_at_baseline. lra.
Defined.

(** X10: for a gap that does not overflow, exchanging [mean] and
    [baseline] gives the complement to 1. *)
Theorem probability_improvement_swap (mean sigma baseline : R) :
  sigma <> 0 -> finite_gap mean baseline ->
  exists p q : R,
    probability_improvement mean sigma baseline = Ok p /\
    probability_improvement baseline sigma mean = Ok q /\
    p + q = 1.
Proof.
  intros Hs _.
  do 2 eexists. split; [now apply probability_improvement_ok |].
  split; [now apply probability_improvement_ok |].
  rewrite (gap_ratio_opp sigma mean baseline Hs), erf_odd. lra.
Qed.

Lemma probability_improvement_swap_witness :
  0.13 <> 0 /\ finite_gap 0.30 0.424 /\
  exists p q : R,
    probability_improvement 0.30 0.13 0.424 = Ok p /\
    probability_improvement 0.424 0.13 0.30 = Ok q /\
    p + q = 1.
Proof.
  assert (finite_gap 0.30 0.424) as Hg by (apply finite_gap_small; lra).
  split; [lra |]. split; [exact Hg |].
  apply probability_improvement_swap; [lra | exact Hg].
Defined.

(** X11: a negative [sigma] is not refused: for a gap that does not
    overflow, the function then returns the complement to 1 of its value for
    the opposite [sigma]. *)
Theorem probability_improvement_negative_sigma (mean sigma baseline : R) :
  sigma <> 0 -> finite_gap mean baseline ->
  exists p q : R,
    probability_improvement mean sigma baseline = Ok p /\
    probability_improvement mean (- sigma) baseline = Ok q /\
    p + q = 1.
Proof.
  intros Hs _.
  do 2 eexists. split; [now apply probability_improvement_ok |].
  split; [apply probability_improvement_ok; lra |].
  replace ((mean - baseline) / (- sigma * sqrt 2))
    with (- ((mean - baseline) / (sigma * sqrt 2)))
    by (field; split; [apply sqrt2_neq_0 | exact Hs]).
  rewrite erf_odd. lra.
Qed.

Lemma probability_improvement_negative_sigma_witness :
  0.13 <> 0 /\ finite_gap 0.30 0.424 /\
  exists p q : R,
    probability_improvement 0.30 0.13 0.424 = Ok p /\
    probability_improvement 0.30 (Ropp 0.13) 0.424 = Ok q /\
    p + q = 1.
Proof.
  assert (finite_gap 0.30 0.424) as Hg by (apply finite_gap_small; lra).
  split; [lra |]. split; [exact Hg |].
  apply probability_improvement_negative_sigma; [lra | exact Hg].
Defined.

(** X12: for [sigma > 0] and a gap that does not overflow, the value is one
    half at least when [mean] is not below [baseline], and one half at most
    when [mean] is not above it. *)
Theorem probability_improvement_half (mean sigma baseline : R) :
  0 < sigma -> finite_gap mean baseline ->
  exists p : R,
    probability_improvement mean sigma baseline = Ok p /\
    (baseline <= mean -> 0.5 <= p) /\
    (mean <= baseline -> p <= 0.5).
Proof.
  intros Hs _. assert (sigma <> 0) as Hs0 by lra.
  pose proof (sigma_sqrt2_pos sigma Hs) as Hk.
  assert (0 < / (sigma * sqrt 2)) as Hi by now apply Rinv_0_lt_compat.
  eexists. split; [now apply probability_improvement_ok |].
  split; intros H.
  - assert (0 <= (mean - baseline) / (sigma * sqrt 2)) as Hq
        by (apply Rmult_le_pos; lra).
    apply erf_monotone in Hq. rewrite erf_0 in Hq. lra.
  - assert ((mean - baseline) / (sigma * sqrt 2) <= 0) as Hq.
    { unfold Rdiv. rewrite <- (Rmult_0_l (/ (sigma * sqrt 2))).
      apply Rmult_le_compat_r; lra. }
    apply erf_monotone in Hq. rewrite erf_0 in Hq. lra.
Qed.

Lemma probability_improvement_half_witness :
  0 < 0.13 /\ finite_gap 0.30 0.424 /\
  exists p : R,
    probability_improvement 0.30 0.13 0.424 = Ok p /\
    (0.424 <= 0.30 -> 0.5 <= p) /\
    (0.30 <= 0.424 -> p <= 0.5).
Proof.
  assert (finite_gap 0.30 0.424) as Hg by (apply finite_gap_small; lra).
  split; [lra |]. split; [exact Hg |].
  apply probability_improvement_half; [lra | exact Hg].
Defined.

(** X14: for [sigma > 0] the value comes as close to 1 as wanted when [mean]
    is far enough above [baseline], and as close to 0 as wanted when it is far
    enough below. *)
Theorem probability_improvement_limits (sigma eps : R) :
  0 < sigma -> 0 < eps ->
  exists gap : R, forall mean baseline : R,
    (gap < mean - baseline ->
     exists p : R,
       probability_improvement mean sigma baseline = Ok p /\ 1 - eps < p) /\
    (gap < baseline - mean ->
     exists p : R,
       probability_improvement mean sigma baseline = Ok p /\ p < eps).
Proof.
  intros Hs Heps. assert (sigma <> 0) as Hs0 by lra.
  pose proof (sigma_sqrt2_pos sigma Hs) as Hk.
  destruct (erf_limit (2 * eps)) as [T0 HT0]; [lra |].
  assert (forall d : R, sigma * sqrt 2 * T0 < d ->
            1 - 2 * eps < erf (d / (sigma * sqrt 2))) as Hfar.
  { intros d Hd.
    assert (T0 < d / (sigma * sqrt 2)) as Hu.
    { apply (Rmult_lt_reg_r (sigma * sqrt 2)); [exact Hk |].
      unfold Rdiv. rewrite Rmult_assoc, Rinv_l by lra. lra. }
    specialize (HT0 _ Hu). revert HT0. unfold Rabs.
    destruct (Rcase_abs _); lra. }
  exists (sigma * sqrt 2 * T0). intros mean baseline. split; intros Hgap.
  - eexists. split; [now apply probability_improvement_ok |].
    specialize (Hfar _ Hgap). lra.
  - eexists. split; [now apply probability_improvement_ok |].
    specialize (Hfar _ Hgap).
    rewrite (gap_ratio_opp sigma mean baseline Hs0), erf_odd in Hfar. lra.
Qed.

Lemma probability_improvement_limits_witness :
  0 < 0.13 /\ 0 < 0.001 /\
  exists gap : R, forall mean baseline : R,
    (gap < mean - baseline ->
     exists p : R,
       probability_improvement mean 0.13 baseline = Ok p /\ 1 - 0.001 < p) /\
    (gap < baseline - mean ->
     exists p : R,
       probability_improvement mean 0.13 baseline = Ok p /\ p < 0.001).
Proof.
  split; [lra |]. split; [lra |].
  apply probability_improvement_limits; lra.
Defined.

(** * The data handling of the experimental-design notebook *)

Module DesignFacts.
Import Design.

(** ** Dicts *)

Lemma getitem_filter_other (key k : string) (d : row) :
  k <> key ->
  getitem k (filter (fun kv => negb (String.eqb (fst kv) key)) d)
  = getitem k d.
Proof.
  intros Hk. induction d as [|[k0 v] d IH]; [reflexivity |].
  cbn [filter fst getitem].
  destruct (String.eqb k0 key) eqn:E0; cbn [negb].
  - apply String.eqb_eq in E0. subst k0.
    destruct (String.eqb key k) eqn:E1; [| exact IH].
    apply String.eqb_eq in E1. congruence.
  - cbn [getitem]. destruct (String.eqb k0 k); [reflexivity | exact IH].
Qed.

Lemma getitem_filter_same (key : string) (d : row) :
  getitem key (filter (fun kv => negb (String.eqb (fst kv) key)) d)
  = Raise (KeyError key).
Proof.
  induction d as [|[k0 v] d IH]; [reflexivity |].
  cbn [filter fst]. destruct (String.eqb k0 key) eqn:E0; cbn [negb].
  - exact IH.
  - cbn [getitem]. now rewrite E0.
Qed.

Lemma getitem_raise (key : string) (d : row) (e : exn) :
  getitem key d = Raise e -> e = KeyError key.
Proof.
  induction d as [|[k0 v] d IH]; cbn [getitem].
  - now intros [= <-].
  - destruct (String.eqb k0 key); [discriminate | exact IH].
Qed.

(** After [del d[key]] the key is absent and the other keys are as they
    were. *)
Lemma delitem_ok (key : string) (d d' : row) :
  delitem key d = Ok d' ->
  getitem key d' = Raise (KeyError key) /\
  forall k : string, k <> key -> getitem k d' = getitem k d.
Proof.
  unfold delitem. destruct (getitem key d); [| discriminate].
  intros [= <-]. split; [apply getitem_filter_same |].
  intros k Hk. now apply getitem_filter_other.
Qed.

Lemma delitem_raise (key : string) (d : row) (e : exn) :
  delitem key d = Raise e ->
  e = KeyError key /\ getitem key d = Raise (KeyError key).
Proof.
  unfold delitem. destruct (getitem key d) eqn:E; [discriminate |].
  intros [= <-]. pose proof (getitem_raise _ _ _ E) as ->. auto.
Qed.

(** ** The unknown subset *)

Lemma del_ZT_ok (rows us : list row) :
  del_ZT rows = Ok us ->
  Forall2 (fun r0 r : row =>
             getitem "ZT" r = Raise (KeyError "ZT") /\
             forall k : string, k <> "ZT"%string -> getitem k r = getitem k r0)
          rows us.
Proof.
  revert us. induction rows as [|x rows IH]; intros us; cbn [del_ZT].
  - intros [= <-]. constructor.
  - destruct (delitem "ZT" x) as [x'|] eqn:Ex; [| discriminate].
    destruct (del_ZT rows) as [rows''|]; [| discriminate].
    intros [= <-]. constructor; [now apply delitem_ok | now apply IH].
Qed.

Lemma del_ZT_raise (rows : list row) (e : exn) :
  del_ZT rows = Raise e ->
  e = KeyError "ZT" /\
  exists x : row, In x rows /\ getitem "ZT" x = Raise (KeyError "ZT").
Proof.
  induction rows as [|x rows IH]; cbn [del_ZT]; [discriminate |].
  destruct (delitem "ZT" x) as [x'|e'] eqn:Ex.
  - destruct (del_ZT rows) as [rows''|e'']; [discriminate |].
    intros [= <-]. destruct (IH eq_refl) as (-> & y & Hy & Ey).
    split; [reflexivity |]. exists y. split; [now right | exact Ey].
  - intros [= <-]. apply delitem_raise in Ex as [-> Ex].
    split; [reflexivity |]. exists x. split; [now left | exact Ex].
Qed.

(** X15: when the loop over the unknown subset ends, the subset holds the
    rows of the data after the first twenty, in their order; none has the key
    ZT any more, and each keeps its other keys with their values. *)
Theorem unknown_subset_rows (full_data us : list row) :
  unknown_subset full_data = Ok us ->
  List.length us = (List.length full_data - 20)%nat /\
  Forall2 (fun r0 r : row =>
             getitem "ZT" r = Raise (KeyError "ZT") /\
             forall k : string, k <> "ZT"%string -> getitem k r = getitem k r0)
          (skipn 20 full_data) us.
Proof.
  intros H. apply del_ZT_ok in H. split; [| exact H].
  apply Forall2_length in H. rewrite <- H. apply length_skipn.
Qed.

Lemma unknown_subset_rows_witness :
  unknown_subset
    (repeat [("formula", "TiO2"); ("ZT", "0.1")] 20
     ++ [[("formula", "WO3"); ("ZT", "0.2")]])%list
  = Ok [[("formula", "WO3")]] /\
  List.length [[("formula", "WO3")]] = (21 - 20)%nat.
Proof.
  split; [reflexivity |].
  exact (proj1 (unknown_subset_rows
                  (repeat [("formula", "TiO2"); ("ZT", "0.1")] 20
                   ++ [[("formula", "WO3"); ("ZT", "0.2")]])%list
                  [[("formula", "WO3")]] eq_refl)).
Defined.

Lemma del_ZT_missing (rows : list row) :
  (exists x : row, In x rows /\ getitem "ZT" x = Raise (KeyError "ZT")) ->
  del_ZT rows = Raise (KeyError "ZT").
Proof.
  intros (x & Hx & Ex). induction rows as [|y rows IH]; [destruct Hx |].
  cbn [del_ZT]. destruct (delitem "ZT" y) as [y'|e] eqn:Ey.
  - destruct Hx as [-> | Hx].
    + unfold delitem in Ey. rewrite Ex in Ey. discriminate.
    + now rewrite (IH Hx).
  - now apply delitem_raise in Ey as [-> _].
Qed.

(** X16: the loop raises exactly when a row after the first twenty has no
    key ZT, and the exception is then [KeyError] for that key; the first
    twenty rows play no part. *)
Theorem unknown_subset_key_error (full_data : list row) :
  (unknown_subset full_data = Raise (KeyError "ZT") <->
   exists x : row,
     In x (skipn 20 full_data) /\ getitem "ZT" x = Raise (KeyError "ZT")) /\
  (forall e : exn,
      unknown_subset full_data = Raise e -> e = KeyError "ZT").
Proof.
  split; [split |].
  - intros H. now apply del_ZT_raise in H as [_ H].
  - apply del_ZT_missing.
  - intros e H. now apply del_ZT_raise in H as [H _].
Qed.

Lemma unknown_subset_key_error_witness :
  unknown_subset (repeat [("formula", "TiO2")] 20
                  ++ [[("formula", "WO3")]])%list
  = Raise (KeyError "ZT").
Proof.
  apply (proj1 (unknown_subset_key_error _)).
  exists [("formula", "WO3")]. split; [now left | reflexivity].
Defined.

(** ** [write_csv] *)

Lemma count_char_app (c : ascii) (a b : string) :
  count_char c (a ++ b) = (count_char c a + count_char c b)%nat.
Proof.
  induction a as [|x a IH]; cbn [append count_char]; [reflexivity |].
  rewrite IH. apply Nat.add_assoc.
Qed.

Lemma write_rows_fst_app (rows : list row) (f g : string) :
  fst (write_rows rows (g ++ f)) = (g ++ fst (write_rows rows f))%string /\
  snd (write_rows rows (g ++ f)) = snd (write_rows rows f).
Proof.
  revert f. induction rows as [|r rows IH]; intros f; cbn [write_rows].
  - auto.
  - destruct (format_row r) as [line|e]; [| auto].
    rewrite append_assoc. apply IH.
Qed.

Lemma write_rows_lines (rows : list row) (f : string) :
  Forall one_line rows ->
  snd (write_rows rows f) = Ok tt /\
  count_char (ascii_of_nat 10) (fst (write_rows rows f))
  = (count_char (ascii_of_nat 10) f + List.length rows)%nat.
Proof.
  intros H. revert f. induction H as [|r rows Hr _ IH]; intros f.
  - cbn [write_rows fst snd List.length]. split; [reflexivity | lia].
  - destruct Hr as (fo & zt & Ef & Ez & Cf & Cz).
    cbn [write_rows]. unfold format_row. rewrite Ef, Ez.
    destruct (IH (f ++ (fo ++ ", " ++ zt ++ newline))%string) as [E1 E2].
    split; [exact E1 |]. rewrite E2, !count_char_app, Cf, Cz.
    cbn [List.length]. change (count_char (ascii_of_nat 10) ", ") with 0%nat.
    change (count_char (ascii_of_nat 10) newline) with 1%nat. lia.
Qed.

(** X17: when every row has the keys formula and ZT, with values holding no
    line break, [write_csv] raises nothing and the file starts with the
    header and has one line more than there are rows. *)
Theorem write_csv_lines (rows : list row) :
  Forall one_line rows ->
  snd (write_csv rows) = Ok tt /\
  (exists body : string, fst (write_csv rows) = (header ++ body)%string) /\
  count_char (ascii_of_nat 10) (fst (write_csv rows))
  = (1 + List.length rows)%nat.
Proof.
  intros H. unfold write_csv.
  destruct (write_rows_lines rows header H) as [E1 E2].
  split; [exact E1 |]. split; [| exact E2].
  exists (fst (write_rows rows "")).
  rewrite <- (append_nil_r header) at 1. apply write_rows_fst_app.
Qed.

Lemma write_csv_lines_witness :
  Forall one_line [[("formula", "TiO2"); ("ZT", "0.1")];
                   [("ZT", "0.2"); ("formula", "WO3")]] /\
  count_char (ascii_of_nat 10)
    (fst (write_csv [[("formula", "TiO2"); ("ZT", "0.1")];
                     [("ZT", "0.2"); ("formula", "WO3")]]))
  = 3%nat.
Proof.
  assert (Forall one_line [[("formula", "TiO2"); ("ZT", "0.1")];
                           [("ZT", "0.2"); ("formula", "WO3")]]) as H.
  { repeat constructor.
    - exists "TiO2"%string, "0.1"%string. repeat split; reflexivity.
    - exists "WO3"%string, "0.2"%string. repeat split; reflexivity. }
  split; [exact H |]. exact (proj2 (proj2 (write_csv_lines _ H))).
Defined.

Lemma write_rows_app (good rest : list row) (f : string) :
  Forall writable good ->
  snd (write_rows good f) = Ok tt /\
  write_rows (good ++ rest) f = write_rows rest (fst (write_rows good f)).
Proof.
  intros H. revert f. induction H as [|r good Hr _ IH]; intros f.
  - cbn [write_rows app fst snd]. auto.
  - destruct Hr as (fo & zt & Ef & Ez).
    cbn [write_rows app]. unfold format_row. rewrite Ef, Ez. apply IH.
Qed.

(** X18: at the first row that lacks a key, [write_csv] raises [KeyError]
    for the key formula if it is missing, else for the key ZT; the file then
    holds the header and the lines of the rows before, and nothing of the rows
    after. *)
Theorem write_csv_key_error (good rest : list row) (bad : row) :
  Forall writable good -> ~ writable bad ->
  exists key : string,
    (key = "formula"%string \/
     key = "ZT"%string /\ getitem "formula" bad <> Raise (KeyError "formula"))
    /\ getitem key bad = Raise (KeyError key)
    /\ write_csv (good ++ bad :: rest)
       = (fst (write_csv good), Raise (KeyError key))
    /\ snd (write_csv good) = Ok tt.
Proof.
  intros Hgood Hbad. unfold write_csv.
  destruct (write_rows_app good (bad :: rest) header Hgood) as [E1 E2].
  rewrite E2. cbn [write_rows]. unfold format_row.
  destruct (getitem "formula" bad) as [fo|e] eqn:Ef.
  - destruct (getitem "ZT" bad) as [zt|e] eqn:Ez.
    + elim Hbad. exists fo, zt. auto.
    + pose proof (getitem_raise _ _ _ Ez) as ->.
      exists "ZT"%string. repeat split; auto. right. split; [reflexivity |].
      discriminate.
  - pose proof (getitem_raise _ _ _ Ef) as ->.
    exists "formula"%string. repeat split; auto.
Qed.

Lemma write_csv_key_error_witness :
  exists key : string,
    getitem key [("formula", "WO3")] = Raise (KeyError key) /\
    write_csv ([[("formula", "TiO2"); ("ZT", "0.1")]]
               ++ [("formula", "WO3")] :: [[("ZT", "0.3")]])
    = (fst (write_csv [[("formula", "TiO2"); ("ZT", "0.1")]]),
       Raise (KeyError key)).
Proof.
  assert (Forall writable [[("formula", "TiO2"); ("ZT", "0.1")]]) as Hg.
  { repeat constructor. exists "TiO2"%string, "0.1"%string. auto. }
  assert (~ writable [("formula", "WO3")]) as Hb.
  { intros (fo & zt & _ & E). discriminate E. }
  destruct (write_csv_key_error _ [[("ZT", "0.3")]] _ Hg Hb)
    as (key & _ & E1 & E2 & _).
  exists key. split; [exact E1 | exact E2].
Defined.

(** ** The baseline *)

Lemma fold_Rmax_spec (l : list R) (v : R) :
  v <= fold_left Rmax l v /\
  (forall x : R, In x l -> x <= fold_left Rmax l v) /\
  In (fold_left Rmax l v) (v :: l).
Proof.
  revert v. induction l as [|a l IH]; intros v; cbn [fold_left].
  - split; [lra |]. split; [intros x [] | now left].
  - destruct (IH (Rmax v a)) as (H1 & H2 & H3).
    pose proof (Rmax_l v a). pose proof (Rmax_r v a).
    split; [lra |]. split.
    + intros x [<- | Hx]; [lra | now apply H2].
    + destruct H3 as [H3 | H3]; [| now right; right].
      rewrite <- H3. unfold Rmax. destruct (Rle_dec v a); cbn; auto.
Qed.

Section BaselineFacts.

Variable to_float : string -> option R.

Lemma ZT_values_ok (rows : list row) (vs : list R) :
  ZT_values to_float rows = Ok vs ->
  Forall2 (fun x v => ZT_value to_float x = Ok v) rows vs.
Proof.
  revert vs. induction rows as [|x rows IH]; intros vs; cbn [ZT_values].
  - intros [= <-]. constructor.
  - destruct (ZT_value to_float x) as [v|] eqn:Ex; [| discriminate].
    destruct (ZT_values to_float rows) as [vs'|]; [| discriminate].
    intros [= <-]. constructor; [exact Ex | now apply IH].
Qed.

Lemma ZT_values_total (rows : list row) :
  (forall x : row, In x rows -> exists v : R, ZT_value to_float x = Ok v) ->
  exists vs : list R,
    ZT_values to_float rows = Ok vs /\ List.length vs = List.length rows.
Proof.
  induction rows as [|x rows IH]; intros H; cbn [ZT_values].
  - now exists [].
  - destruct (H x (or_introl eq_refl)) as [v ->].
    destruct IH as (vs & -> & Hl); [intros y Hy; apply H; now right |].
    exists (v :: vs). cbn [List.length]. now rewrite Hl.
Qed.

Lemma Forall2_In_l {A B : Type} (P : A -> B -> Prop) (l : list A)
      (l' : list B) (a : A) :
  Forall2 P l l' -> In a l -> exists b : B, In b l' /\ P a b.
Proof.
  induction 1 as [|x y l l' Hxy _ IH]; intros Ha; [destruct Ha |].
  destruct Ha as [<- | Ha].
  - exists y. split; [now left | exact Hxy].
  - destruct (IH Ha) as (b & Hb & Pb). exists b. split; [now right | exact Pb].
Qed.

Lemma Forall2_In_r {A B : Type} (P : A -> B -> Prop) (l : list A)
      (l' : list B) (b : B) :
  Forall2 P l l' -> In b l' -> exists a : A, In a l /\ P a b.
Proof.
  induction 1 as [|x y l l' Hxy _ IH]; intros Hb; [destruct Hb |].
  destruct Hb as [<- | Hb].
  - exists x. split; [now left | exact Hxy].
  - destruct (IH Hb) as (a & Ha & Pa). exists a. split; [now right | exact Pa].
Qed.

(** X19: the baseline is the value of the key ZT of one of the known rows,
    and no known row has a larger one. *)
Theorem baseline_ZT_is_max (known : list row) (b : R) :
  baseline_ZT to_float known = Ok b ->
  (exists x : row, In x known /\ ZT_value to_float x = Ok b) /\
  (forall x : row,
      In x known -> exists v : R, ZT_value to_float x = Ok v /\ v <= b).
Proof.
  unfold baseline_ZT.
  destruct (ZT_values to_float known) as [vs|] eqn:E; [| discriminate].
  apply ZT_values_ok in E. destruct vs as [|v vs]; [discriminate |].
  cbn [max]. intros [= <-].
  destruct (fold_Rmax_spec vs v) as (H1 & H2 & H3).
  split.
  - destruct (Forall2_In_r _ _ _ _ E H3) as (x & Hx & Ex). now exists x.
  - intros x Hx. destruct (Forall2_In_l _ _ _ _ E Hx) as (w & Hw & Ew).
    exists w. split; [exact Ew |].
    destruct Hw as [<- | Hw]; [exact H1 | now apply H2].
Qed.

(** X20: the baseline is computed exactly when there is a known row and
    every known row has a key ZT whose value [float] accepts; on an empty
    list, [max] raises. *)
Theorem baseline_ZT_defined (known : list row) :
  (exists b : R, baseline_ZT to_float known = Ok b) <->
  known <> [] /\
  forall x : row, In x known -> exists v : R, ZT_value to_float x = Ok v.
Proof.
  split.
  - intros [b H]. split.
    + intros ->. discriminate H.
    + unfold baseline_ZT in H.
      destruct (ZT_values to_float known) as [vs|] eqn:E; [| discriminate].
      apply ZT_values_ok in E. intros x Hx.
      destruct (Forall2_In_l _ _ _ _ E Hx) as (v & _ & Ev). now exists v.
  - intros [Hne H]. unfold baseline_ZT.
    destruct (ZT_values_total known H) as (vs & -> & Hl).
    destruct vs as [|v vs].
    + destruct known; [now elim Hne | discriminate Hl].
    + cbn [max]. eauto.
Qed.

End BaselineFacts.

Lemma baseline_ZT_is_max_witness :
  baseline_ZT sample_float [[("formula", "TiO2"); ("ZT", "0.1")];
                            [("formula", "WO3"); ("ZT", "0.4")]]
  = Ok 0.4 /\
  (exists x : row,
      In x [[("formula", "TiO2"); ("ZT", "0.1")];
            [("formula", "WO3"); ("ZT", "0.4")]] /\
      ZT_value sample_float x = Ok 0.4).
Proof.
  assert (baseline_ZT sample_float [[("formula", "TiO2"); ("ZT", "0.1")];
                                    [("formula", "WO3"); ("ZT", "0.4")]]
          = Ok 0.4) as E.
  { unfold baseline_ZT. cbn. f_equal. apply Rmax_right. lra. }
  split; [exact E |]. exact (proj1 (baseline_ZT_is_max sample_float _ 0.4 E)).
Defined.

Lemma baseline_ZT_defined_witness :
  (exists b : R,
      baseline_ZT sample_float [[("formula", "TiO2"); ("ZT", "0.1")]] = Ok b)
  /\ ~ (exists b : R, baseline_ZT sample_float [] = Ok b).
Proof.
  split.
  - apply (proj2 (baseline_ZT_defined sample_float _)).
    split; [discriminate |].
    intros x [<- | []]. exists 0.1. reflexivity.
  - intros H. apply (proj1 (baseline_ZT_defined sample_float [])) in H.
    now destruct H as [H _].
Defined.

End DesignFacts.

(** * Reading a property of a record *)

Module PifReadFacts.
Import PifRead.

Lemma next_named_first (key : string) (before after : list property)
      (x : property) :
  Forall (fun y => name y <> key) before -> name x = key ->
  next_named key (before ++ x :: after) = Ok x.
Proof.
  intros Hb Hx. induction Hb as [|y before Hy _ IH]; cbn [app next_named].
  - now rewrite Hx, String.eqb_refl.
  - apply String.eqb_neq in Hy. now rewrite Hy.
Qed.

Lemma next_named_none (key : string) (properties : list property) :
  Forall (fun y => name y <> key) properties ->
  next_named key properties = Raise StopIteration.
Proof.
  induction 1 as [|y l Hy _ IH]; cbn [next_named]; [reflexivity |].
  apply String.eqb_neq in Hy. now rewrite Hy.
Qed.

(** X21: the total energy read from a record is the first scalar of the
    first property named "Total Energy"; what comes after that property plays
    no part, even when it has no scalar, which raises [IndexError]; without a
    property of that name the reading raises [StopIteration]. *)
Theorem total_energy_value_first (before after : list property)
        (x : property) :
  Forall (fun y => name y <> "Total Energy"%string) before ->
  name x = "Total Energy"%string ->
  total_energy_value (before ++ x :: after)
  = match scalars x with
    | v :: _ => Ok v
    | [] => Raise IndexError
    end /\
  total_energy_value before = Raise StopIteration.
Proof.
  intros Hb Hx. unfold total_energy_value.
  rewrite (next_named_first _ before after x Hb Hx).
  now rewrite (next_named_none _ before Hb).
Qed.

Lemma total_energy_value_first_witness :
  total_energy_value
    ([mkProperty "Pressure" [0]]
     ++ mkProperty "Total Energy" [] :: [mkProperty "Total Energy" [-14]])
  = Raise IndexError.
Proof.
  refine (proj1 (total_energy_value_first [mkProperty "Pressure" [0]] _
                   (mkProperty "Total Energy" []) _ eq_refl)).
  repeat constructor. discriminate.
Defined.

End PifReadFacts.
